(** * Heap.hh: an array-backed binary heap with a caller-supplied comparator

    A shallow embedding of [src/generic_heap/Heap.hh] and the properties its
    specification states about it.

    - [Heap<T, Compare>] has two members.  [comparator] is fixed when the
      heap is constructed and no operation assigns it, so it is a variable
      of the section.  [container] (a [std::vector<T>]) is the whole mutable
      state: a heap is modelled by its container, a [list T].
    - Indices are [int32_t] in the source and sizes are [size_type]
      (64 bit, unsigned).  Both are integers in [Z]; every conversion the
      source performs is written out with [to_int32] and [to_size_t].
      Signed overflow (undefined in C++) is modelled as two's-complement
      wrap-around; the theorems that depend on index arithmetic assume the
      container small enough that none occurs.
    - [std::vector::at] and the three accessors throw [std::out_of_range];
      [front()] on an empty vector is undefined behaviour; the two [while]
      loops need not terminate.  All three effects are results of the
      [outcome] monad; loops take fuel. *)

From Stdlib Require Import ZArith Lia ZifyNat ZifyBool.
From stdpp Require Import base tactics option list numbers.

Local Open Scope Z_scope.

(** ** Results of running a member function *)

(** Which of the three element accessors threw. *)
Inductive relative := LeftChild | RightChild | Parent.

(** The two places a [std::out_of_range] can come from. *)
Inductive exception :=
| IndexUnavailable (r : relative)   (* throw in left_child/right_child/parent *)
| VectorRange.                      (* throw in std::vector::at *)

Inductive outcome (A : Type) : Type :=
| Done (a : A)            (* the call returned *)
| Throw (e : exception)   (* the call left by an exception *)
| Undefined               (* the call has undefined behaviour *)
| Timeout.                (* the fuel ran out before the loop ended *)

Arguments Done {A} a.
Arguments Throw {A} e.
Arguments Undefined {A}.
Arguments Timeout {A}.

#[global] Instance outcome_ret : MRet outcome := @Done.
#[global] Instance outcome_bind : MBind outcome := λ A B f m,
  match m with
  | Done a => f a
  | Throw e => Throw e
  | Undefined => Undefined
  | Timeout => Timeout
  end.

(** ** Machine integers *)

(** Conversion to [int32_t]: reduction modulo 2^32 into [-2^31, 2^31). *)
Definition to_int32 (z : Z) : Z := (z + 2 ^ 31) mod 2 ^ 32 - 2 ^ 31.

(** Conversion to [size_type]: reduction modulo 2^64. *)
Definition to_size_t (z : Z) : Z := z mod 2 ^ 64.

(** In a container of fewer than 2^30 elements no index computation of
    the source overflows [int32_t]: [2 * (index + 1)] stays below 2^31. *)
Definition index_bound : Z := 2 ^ 30.

Section Heap.

Context {T : Type}.
Variable comparator : T → T → bool.

Implicit Types (c : list T) (index : Z) (fuel : nat).

(** ** std::vector operations used by the source *)

Definition size c : Z := Z.of_nat (length c).

Definition empty c : bool := size c =? 0.

(** [container.at(n)]: the argument is converted to [size_type]. *)
Definition at_ c (n : Z) : outcome T :=
  match c !! Z.to_nat (to_size_t n) with
  | Some x => Done x
  | None => Throw VectorRange
  end.

Definition front c : outcome T :=
  match c with
  | [] => Undefined
  | x :: _ => Done x
  end.

Definition back c : outcome T :=
  match c !! Nat.pred (length c) with
  | None => Undefined
  | Some x => Done x
  end.

Definition push_back c (v : T) : list T := c ++ [v].

Definition pop_back c : outcome (list T) :=
  match c with
  | [] => Undefined
  | _ => Done (removelast c)
  end.

Definition clear c : list T := [].

Definition assign c (elements : list T) : list T := elements.

(** [swap(container.at(i), container.at(j))]. *)
Definition swap_at c (i j : Z) : outcome (list T) :=
  x ← at_ c i;
  y ← at_ c j;
  Done (<[Z.to_nat (to_size_t j) := x]> (<[Z.to_nat (to_size_t i) := y]> c)).

(** [swap(container.front(), container.back())]. *)
Definition swap_front_back c : outcome (list T) :=
  x ← front c;
  y ← back c;
  Done (<[Nat.pred (length c) := x]> (<[0%nat := y]> c)).

(** ** Index helpers *)

Definition get_left_child_index index : Z := to_int32 (2 * index + 1).

Definition get_right_child_index index : Z := to_int32 (2 * (index + 1)).

(** [/] on [int] truncates toward zero: [Z.quot]. *)
Definition get_parent_index index : Z := to_int32 (to_int32 (index - 1) ÷ 2).

(** [int32_t < size_type]: the left operand is converted to [size_type]. *)
Definition has_left_child c index : bool :=
  to_size_t (get_left_child_index index) <? size c.

Definition has_right_child c index : bool :=
  to_size_t (get_right_child_index index) <? size c.

(** [index < (int32_t)this->size()]: a signed comparison. *)
Definition has_parent c index : bool := index <? to_int32 (size c).

Definition left_child c index : outcome T :=
  if negb (has_left_child c index) then Throw (IndexUnavailable LeftChild)
  else at_ c (get_left_child_index index).

Definition right_child c index : outcome T :=
  if negb (has_right_child c index) then Throw (IndexUnavailable RightChild)
  else at_ c (get_right_child_index index).

Definition parent c index : outcome T :=
  if negb (has_parent c index) then Throw (IndexUnavailable Parent)
  else at_ c (get_parent_index index).

(** ** Bubble-up and bubble-down *)

(** [a && b] where [b] is evaluated only when [a] holds. *)
Definition and_then (a : bool) (b : outcome bool) : outcome bool :=
  if a then b else Done false.

Fixpoint bubble_up fuel c index : outcome (list T) :=
  match fuel with
  | O => Timeout
  | S fuel =>
    continue ← and_then (has_parent c index)
                 (p ← parent c index; x ← at_ c index; Done (comparator p x));
    if continue : bool then
      let parent_index := get_parent_index index in
      c ← swap_at c index parent_index;
      bubble_up fuel c parent_index
    else Done c
  end.

Fixpoint bubble_down fuel c index : outcome (list T) :=
  match fuel with
  | O => Timeout
  | S fuel =>
    if has_left_child c index then
      let swappable_index := get_left_child_index index in
      right_better ← and_then (has_right_child c index)
                       (l ← left_child c index; r ← right_child c index;
                        Done (comparator l r));
      let swappable_index :=
        if right_better : bool then get_right_child_index index
        else swappable_index in
      x ← at_ c index;
      y ← at_ c swappable_index;
      if comparator x y then
        c ← swap_at c index swappable_index;
        bubble_down fuel c swappable_index
      else Done c
    else Done c
  end.

(** ** Public operations *)

Definition push fuel (value : T) c : outcome (list T) :=
  let c := push_back c value in
  bubble_up fuel c (to_int32 (to_size_t (size c - 1))).

(** The loop [for (i = start; i >= 0; i--) bubble_down(i)] runs
    [start + 1] times when [start >= 0] and not at all otherwise; [n]
    counts the iterations left, the current index being [n - 1]. *)
Fixpoint heapify_loop fuel (n : nat) c : outcome (list T) :=
  match n with
  | O => Done c
  | S i => c ← bubble_down fuel c (Z.of_nat i); heapify_loop fuel i c
  end.

(** The initial value of the loop variable: [size() - 1] is computed in
    [size_type] and then narrowed to [int32_t]. *)
Definition heapify_start c : Z := to_int32 (to_size_t (size c - 1)).

Definition heapify fuel (elements : list T) c : outcome (list T) :=
  let c := clear c in
  let c := assign c elements in
  heapify_loop fuel (Z.to_nat (heapify_start c + 1)) c.

Definition pop fuel c : outcome (list T) :=
  if negb (empty c) then
    c ← swap_front_back c;
    c ← pop_back c;
    bubble_down fuel c 0
  else Done c.

Definition top c : outcome T := front c.

(** The body of the loop of [is_heap] from [i] on; [n] counts the
    iterations left.  [i] is a [size_type]; [has_left_child],
    [left_child] and their siblings take an [int32_t]. *)
Fixpoint is_heap_loop (n : nat) c (i : Z) : outcome bool :=
  match n with
  | O => Done true
  | S n =>
    bad_left ← and_then (has_left_child c (to_int32 i))
                 (x ← at_ c i; l ← left_child c (to_int32 i);
                  Done (comparator x l));
    if bad_left : bool then Done false
    else
      bad_right ← and_then (has_right_child c (to_int32 i))
                    (x ← at_ c i; r ← right_child c (to_int32 i);
                     Done (comparator x r));
      if bad_right : bool then Done false
      else is_heap_loop n c (to_size_t (i + 1))
  end.

Definition is_heap c : outcome bool := is_heap_loop (length c) c 0.

End Heap.

(** ** Vocabulary of the specification *)

Section Spec.

Context {T : Type}.
Variable comparator : T → T → bool.

Implicit Types (c : list T) (fuel : nat).

(** The container is small enough for [int32_t] index arithmetic. *)
Definition fits c : Prop := size c < index_bound.

(** The heap-order property: no element is "worse than" a child of its. *)
Definition heap_order c : Prop :=
  ∀ (i : nat) x y,
    c !! i = Some x →
    c !! (2 * i + 1)%nat = Some y ∨ c !! (2 * i + 2)%nat = Some y →
    comparator x y = false.

(** The element at [k] is in order with its parent, at [(k - 1) / 2]. *)
Definition parent_ok c (k : nat) : Prop :=
  ∀ x y, c !! ((k - 1) / 2)%nat = Some x → c !! k = Some y →
         comparator x y = false.

(** The element at [k] is in order with its grandparent. *)
Definition grandparent_ok c (k : nat) : Prop :=
  ∀ x y, c !! (((k - 1) / 2 - 1) / 2)%nat = Some x → c !! k = Some y →
         comparator x y = false.

(** Heap order below [lo]: every node whose parent is at [lo] or later. *)
Definition heap_from (lo : nat) c : Prop :=
  ∀ k, (0 < k)%nat → (lo ≤ (k - 1) / 2)%nat → parent_ok c k.

(** What holds while [bubble_down] is at [j]: the children of [j] may be
    out of order with it, but are in order with the parent of [j]. *)
Definition down_inv (lo j : nat) c : Prop :=
  (∀ k, (0 < k)%nat → (lo ≤ (k - 1) / 2)%nat → ((k - 1) / 2 ≠ j)%nat →
        parent_ok c k) ∧
  ((0 < j)%nat → (lo ≤ (j - 1) / 2)%nat →
   ∀ k, (0 < k)%nat → ((k - 1) / 2 = j)%nat → grandparent_ok c k).

(** What holds while [bubble_up] is at [j]: [j] may be out of order with
    its parent, but its children are in order with that parent. *)
Definition up_inv (j : nat) c : Prop :=
  (∀ k, (0 < k)%nat → k ≠ j → parent_ok c k) ∧
  ((0 < j)%nat → ∀ k, (0 < k)%nat → ((k - 1) / 2 = j)%nat → grandparent_ok c k).

(** The two elements at [i] and [j] exchanged. *)
Definition exchange c (i j : nat) : list T :=
  match c !! i, c !! j with
  | Some x, Some y => <[j := x]> (<[i := y]> c)
  | _, _ => c
  end.

(** The child [bubble_down] compares the element at [i] with. *)
Definition best_child c (i : nat) : nat :=
  match c !! (2 * i + 1)%nat, c !! (2 * i + 2)%nat with
  | Some l, Some r => if comparator l r then (2 * i + 2)%nat else (2 * i + 1)%nat
  | _, _ => (2 * i + 1)%nat
  end.

(** Requirements on the comparator. *)
Definition irreflexive : Prop := ∀ a, comparator a a = false.

Record strict_weak_order : Prop := {
  swo_irreflexive : irreflexive;
  swo_transitive : ∀ a b d,
    comparator a b = true → comparator b d = true → comparator a d = true;
  swo_negatively_transitive : ∀ a b d,
    comparator a b = false → comparator b d = false → comparator a d = false
}.

Record strict_total_order : Prop := {
  sto_weak : strict_weak_order;
  sto_connected : ∀ a b,
    comparator a b = false → comparator b a = false → a = b
}.

(** *** Sequences of public operations *)

Inductive operation :=
| Push (value : T)
| Heapify (elements : list T)
| Pop.

Definition apply fuel (o : operation) c : outcome (list T) :=
  match o with
  | Push value => push comparator fuel value c
  | Heapify elements => heapify comparator fuel elements c
  | Pop => pop comparator fuel c
  end.

Fixpoint run fuel (ops : list operation) c : outcome (list T) :=
  match ops with
  | [] => Done c
  | o :: ops => c ← apply fuel o c; run fuel ops c
  end.

(** The number of elements after an operation on [n] elements. *)
Definition size_after (o : operation) (n : nat) : nat :=
  match o with
  | Push _ => S n
  | Heapify elements => length elements
  | Pop => Nat.pred n
  end.

(** The largest number of elements held while [ops] run from [n]. *)
Fixpoint peak_size (ops : list operation) (n : nat) : nat :=
  match ops with
  | [] => n
  | o :: ops => Nat.max n (peak_size ops (size_after o n))
  end.

Fixpoint push_all fuel (values : list T) c : outcome (list T) :=
  match values with
  | [] => Done c
  | v :: values => c ← push comparator fuel v c; push_all fuel values c
  end.

Fixpoint pop_times fuel (j : nat) c : outcome (list T) :=
  match j with
  | O => Done c
  | S j => c ← pop comparator fuel c; pop_times fuel j c
  end.

(** Read [top()], then [pop()], until the heap is empty; [rounds] bounds
    the number of iterations. *)
Fixpoint drain fuel (rounds : nat) c : outcome (list T) :=
  if empty c then Done []
  else
    match rounds with
    | O => Timeout
    | S rounds =>
      x ← top c;
      c ← pop comparator fuel c;
      rest ← drain fuel rounds c;
      Done (x :: rest)
    end.

(** The specification's account of the loop of [heapify]: sift down once
    at every index of [indices], in the order listed. *)
Fixpoint sift_down_each fuel (indices : list nat) c : outcome (list T) :=
  match indices with
  | [] => Done c
  | i :: indices =>
    c ← bubble_down comparator fuel c (Z.of_nat i);
    sift_down_each fuel indices c
  end.

(** The indices [n - 1], ..., [1], [0]. *)
Fixpoint descending (n : nat) : list nat :=
  match n with
  | O => []
  | S i => i :: descending i
  end.

(** The call left by the exception of an element accessor. *)
Definition index_unavailable {A} (o : outcome A) : bool :=
  match o with
  | Throw (IndexUnavailable _) => true
  | _ => false
  end.

End Spec.

(** The default comparator, [std::less], at element type [Z]. *)
Definition less : Z → Z → bool := Z.ltb.

(** The opposite polarity, [std::greater]. *)
Definition greater : Z → Z → bool := Z.gtb.

(** A reflexive comparator, [std::less_equal]. *)
Definition less_equal : Z → Z → bool := Z.leb.

(** A strict weak ordering that is not total: pairs compared by their
    first component only. *)
Definition by_key (a b : Z * Z) : bool := a.1 <? b.1.

(** The collection the specification uses in its examples. *)
Definition sample : list Z := [5; 3; 8; 1; 9; 2].

(** A sequence of operations exercising all three mutators. *)
Definition sample_operations : list (@operation Z) :=
  [Push 5; Push 3; Heapify sample; Pop; Push 7; Pop; Pop].

(** The order in which a client reads elements off the heap: no element is
    worse than one read after it. *)
Definition extraction_order {T} (comparator : T → T → bool) (l : list T) : Prop :=
  ∀ (i j : nat) x y, (i < j)%nat → l !! i = Some x → l !! j = Some y →
                     comparator x y = false.

(** The number of elements after [ops] have run on [n] elements. *)
Fixpoint final_size {T} (ops : list (@operation T)) (n : nat) : nat :=
  match ops with
  | [] => n
  | o :: ops => final_size ops (size_after o n)
  end.

(** A call that either returns a container of [n] elements or runs out
    of fuel: it neither throws nor has undefined behaviour. *)
Definition returns_or_diverges {T} (n : nat) (o : outcome (list T)) : Prop :=
  (∃ c', o = Done c' ∧ length c' = n) ∨ o = Timeout.

(** * Proofs *)

Ltac Zify.zify_post_hook ::= Z.to_euclidean_division_equations.

(** Reduce the monadic plumbing, and nothing else. *)
Ltac run_step := cbn [mbind outcome_bind mret outcome_ret and_then negb].

(** ** Integer conversions *)

Lemma to_int32_small z : - 2 ^ 31 ≤ z < 2 ^ 31 → to_int32 z = z.
Proof. unfold to_int32. lia. Qed.

Lemma to_size_t_small z : 0 ≤ z < 2 ^ 64 → to_size_t z = z.
Proof. unfold to_size_t. lia. Qed.

Lemma index_to_nat (i : nat) :
  Z.of_nat i < 2 ^ 31 → Z.to_nat (to_size_t (Z.of_nat i)) = i.
Proof. intros. rewrite to_size_t_small; lia. Qed.

(** ** The index helpers on indices in range *)

Section Steps.

Context {T : Type}.
Variable comparator : T → T → bool.

Implicit Types (c : list T) (fuel : nat) (i j k : nat).

Lemma at_nat c i :
  Z.of_nat i < 2 ^ 31 →
  at_ c (Z.of_nat i) =
  match c !! i with Some x => Done x | None => Throw VectorRange end.
Proof. intros. unfold at_. by rewrite index_to_nat. Qed.

Lemma get_left_child_index_nat i :
  Z.of_nat i < index_bound →
  get_left_child_index (Z.of_nat i) = Z.of_nat (2 * i + 1).
Proof.
  unfold index_bound, get_left_child_index. intros.
  rewrite to_int32_small; lia.
Qed.

Lemma get_right_child_index_nat i :
  Z.of_nat i < index_bound - 1 →
  get_right_child_index (Z.of_nat i) = Z.of_nat (2 * i + 2).
Proof.
  unfold index_bound, get_right_child_index. intros.
  rewrite to_int32_small; lia.
Qed.

Lemma get_parent_index_nat i :
  Z.of_nat i < 2 ^ 31 →
  get_parent_index (Z.of_nat i) = Z.of_nat ((i - 1) / 2).
Proof.
  unfold get_parent_index. intros. destruct i as [|i].
  - reflexivity.
  - rewrite (to_int32_small (Z.of_nat (S i) - 1)) by lia.
    rewrite to_int32_small; lia.
Qed.

Lemma has_left_child_nat c i :
  Z.of_nat i < index_bound →
  has_left_child c (Z.of_nat i) = bool_decide (2 * i + 1 < length c)%nat.
Proof.
  intros Hi. unfold has_left_child, size.
  rewrite get_left_child_index_nat by done. unfold index_bound in Hi.
  rewrite to_size_t_small by lia.
  case_bool_decide; lia.
Qed.

Lemma has_right_child_nat c i :
  Z.of_nat i < index_bound - 1 →
  has_right_child c (Z.of_nat i) = bool_decide (2 * i + 2 < length c)%nat.
Proof.
  intros Hi. unfold has_right_child, size.
  rewrite get_right_child_index_nat by done. unfold index_bound in Hi.
  rewrite to_size_t_small by lia.
  case_bool_decide; lia.
Qed.

Lemma has_parent_nat c i :
  size c < 2 ^ 31 →
  has_parent c (Z.of_nat i) = bool_decide (i < length c)%nat.
Proof.
  unfold has_parent, size. intros.
  rewrite to_int32_small by lia.
  case_bool_decide; lia.
Qed.

(** ** Exchanging two elements *)

Lemma length_exchange c i j : length (exchange c i j) = length c.
Proof.
  unfold exchange. destruct (c !! i), (c !! j); try done.
  by rewrite !length_insert.
Qed.

Lemma lookup_exchange c i j k :
  (i < length c)%nat → (j < length c)%nat →
  exchange c i j !! k =
  if decide (k = j) then c !! i else if decide (k = i) then c !! j else c !! k.
Proof.
  intros Hi Hj. unfold exchange.
  destruct (lookup_lt_is_Some_2 c i Hi) as [x Hx].
  destruct (lookup_lt_is_Some_2 c j Hj) as [y Hy].
  rewrite Hx, Hy. repeat case_decide; subst.
  - by rewrite list_lookup_insert_eq by (by rewrite length_insert).
  - rewrite list_lookup_insert_ne by done.
    by rewrite list_lookup_insert_eq.
  - by rewrite !list_lookup_insert_ne.
Qed.

Lemma exchange_perm c i j : exchange c i j ≡ₚ c.
Proof.
  unfold exchange.
  destruct (c !! i) as [x|] eqn:Hx; [|done].
  destruct (c !! j) as [y|] eqn:Hy; [|done].
  pose proof (lookup_lt_Some _ _ _ Hx) as Hi.
  pose proof (lookup_lt_Some _ _ _ Hy) as Hj.
  apply Permutation_inj. split; [by rewrite !length_insert|].
  exists (λ k, if decide (k = j) then i else if decide (k = i) then j else k).
  split.
  - intros a b. repeat case_decide; subst; congruence.
  - intros k. repeat case_decide; subst.
    + rewrite list_lookup_insert_eq by (by rewrite length_insert). done.
    + rewrite list_lookup_insert_ne by done.
      rewrite list_lookup_insert_eq by done. done.
    + by rewrite !list_lookup_insert_ne.
Qed.

Lemma swap_at_nat c i j :
  (i < length c)%nat → (j < length c)%nat → size c < 2 ^ 31 →
  swap_at c (Z.of_nat i) (Z.of_nat j) = Done (exchange c i j).
Proof.
  unfold size. intros Hi Hj Hc. unfold swap_at, exchange.
  rewrite !at_nat, !index_to_nat by lia.
  destruct (lookup_lt_is_Some_2 c i Hi) as [x ->].
  destruct (lookup_lt_is_Some_2 c j Hj) as [y ->].
  reflexivity.
Qed.

(** ** One iteration of each loop *)

Lemma bubble_up_unfold fuel c j x p :
  size c < 2 ^ 31 →
  c !! j = Some x → c !! ((j - 1) / 2)%nat = Some p →
  bubble_up comparator (S fuel) c (Z.of_nat j) =
  if comparator p x
  then bubble_up comparator fuel (exchange c j ((j - 1) / 2))
         (Z.of_nat ((j - 1) / 2))
  else Done c.
Proof.
  intros Hc Hx Hp.
  pose proof (lookup_lt_Some _ _ _ Hx) as Hj.
  pose proof (lookup_lt_Some _ _ _ Hp) as Hpj.
  unfold size in Hc. cbn [bubble_up]. unfold parent.
  rewrite has_parent_nat, bool_decide_eq_true_2 by done.
  rewrite get_parent_index_nat by lia.
  cbn [and_then negb]. rewrite !at_nat by lia. rewrite Hx, Hp. cbn.
  destruct (comparator p x); [|done].
  rewrite swap_at_nat by (done || lia). done.
Qed.

Lemma bubble_down_leaf fuel c j :
  Z.of_nat j < index_bound → (length c ≤ 2 * j + 1)%nat →
  bubble_down comparator (S fuel) c (Z.of_nat j) = Done c.
Proof.
  intros Hj Hlen. cbn [bubble_down].
  rewrite has_left_child_nat, bool_decide_eq_false_2 by (done || lia). done.
Qed.

Lemma best_child_cases c j :
  (2 * j + 1 < length c)%nat →
  best_child comparator c j = (2 * j + 1)%nat ∨
  best_child comparator c j = (2 * j + 2)%nat ∧ (2 * j + 2 < length c)%nat.
Proof.
  intros Hl. unfold best_child.
  destruct (c !! (2 * j + 1)%nat); [|by left].
  destruct (c !! (2 * j + 2)%nat) eqn:Hr; [|by left].
  destruct (comparator _ _); [right|by left].
  split; [done|]. by eapply lookup_lt_Some.
Qed.

Lemma bubble_down_unfold fuel c j x y :
  fits c → (2 * j + 1 < length c)%nat →
  c !! j = Some x → c !! best_child comparator c j = Some y →
  bubble_down comparator (S fuel) c (Z.of_nat j) =
  if comparator x y
  then bubble_down comparator fuel (exchange c j (best_child comparator c j))
         (Z.of_nat (best_child comparator c j))
  else Done c.
Proof.
  unfold fits, size, index_bound. intros Hc Hl Hx Hy.
  pose proof (lookup_lt_Some _ _ _ Hy) as Hs.
  destruct (lookup_lt_is_Some_2 c (2 * j + 1) Hl) as [l Hlx].
  assert (Z.of_nat j < index_bound - 1) as Hj by (unfold index_bound; lia).
  assert (Z.of_nat j < index_bound) as Hj' by lia.
  cbn [bubble_down]. unfold left_child, right_child.
  rewrite has_left_child_nat, bool_decide_eq_true_2 by done.
  rewrite has_right_child_nat by done.
  rewrite get_left_child_index_nat by done.
  revert Hy Hs. unfold best_child. rewrite Hlx.
  case_bool_decide as Hr.
  - destruct (lookup_lt_is_Some_2 c (2 * j + 2) Hr) as [r Hrx].
    rewrite get_right_child_index_nat by done.
    cbn [and_then negb]. rewrite !at_nat by lia. rewrite Hlx, Hrx, Hx. cbn.
    destruct (comparator l r); intros Hy Hs.
    + rewrite !at_nat by lia. rewrite Hy. cbn.
      destruct (comparator x y); [|done].
      rewrite swap_at_nat by (unfold size; lia). done.
    + rewrite !at_nat by lia. rewrite Hy. cbn.
      destruct (comparator x y); [|done].
      rewrite swap_at_nat by (unfold size; lia). done.
  - rewrite (lookup_ge_None_2 c (2 * j + 2)) by lia. intros Hy Hs.
    cbn [and_then mbind outcome_bind]. rewrite !at_nat by lia.
    rewrite Hx, Hy. cbn.
    destruct (comparator x y); [|done].
    rewrite swap_at_nat by (unfold size; lia). done.
Qed.

(** ** Both loops return, and only rearrange the container *)

Lemma bubble_down_run fuel : ∀ c j,
  fits c → Z.of_nat j < index_bound → (length c - j < fuel)%nat →
  ∃ c', bubble_down comparator fuel c (Z.of_nat j) = Done c' ∧ c' ≡ₚ c.
Proof.
  induction fuel as [|fuel IH]; intros c j Hc Hj Hfuel; [lia|].
  destruct (decide (2 * j + 1 < length c)%nat) as [Hl|Hl].
  - destruct (best_child_cases c j Hl) as [Hs|[Hs Hr]].
    all: destruct (lookup_lt_is_Some_2 c j) as [x Hx]; [lia|].
    all: destruct (lookup_lt_is_Some_2 c (best_child comparator c j))
           as [y Hy]; [lia|].
    all: rewrite (bubble_down_unfold fuel c j x y) by done.
    all: destruct (comparator x y); [|by exists c].
    all: destruct (IH (exchange c j (best_child comparator c j))
                     (best_child comparator c j)) as (c' & Hrun & Hperm).
    all: try (unfold fits, size in *; rewrite ?length_exchange; lia).
    all: exists c'; split; [done|].
    all: by rewrite Hperm, exchange_perm.
  - rewrite bubble_down_leaf by (done || lia). by exists c.
Qed.

Lemma bubble_up_run fuel :
  irreflexive comparator → ∀ c j,
  size c < 2 ^ 31 → (j < length c)%nat → (j < fuel)%nat →
  ∃ c', bubble_up comparator fuel c (Z.of_nat j) = Done c' ∧ c' ≡ₚ c.
Proof.
  intros Hirr.
  induction fuel as [|fuel IH]; intros c j Hc Hj Hfuel; [lia|].
  destruct (lookup_lt_is_Some_2 c j) as [x Hx]; [lia|].
  destruct (lookup_lt_is_Some_2 c ((j - 1) / 2)) as [p Hp]; [lia|].
  rewrite (bubble_up_unfold fuel c j x p) by done.
  destruct (comparator p x) eqn:Hpx; [|by exists c].
  assert (0 < j)%nat as Hpos.
  { destruct j; [|lia]. change ((0 - 1) / 2)%nat with 0%nat in Hp.
    rewrite Hx in Hp. injection Hp as ->. rewrite Hirr in Hpx. done. }
  destruct (IH (exchange c j ((j - 1) / 2)) ((j - 1) / 2)%nat)
    as (c' & Hrun & Hperm).
  all: try (unfold size in *; rewrite ?length_exchange; lia).
  exists c'. split; [done|]. by rewrite Hperm, exchange_perm.
Qed.

(** At the root the parent is the root itself: an irreflexive comparator
    stops the loop there, and the container is left as it was. *)
Lemma bubble_up_root fuel c :
  irreflexive comparator → size c < 2 ^ 31 → c ≠ [] →
  bubble_up comparator (S fuel) c 0 = Done c.
Proof.
  intros Hirr Hc Hne. destruct c as [|x c]; [done|].
  change 0 with (Z.of_nat 0).
  rewrite (bubble_up_unfold fuel (x :: c) 0 x x Hc) by done.
  by rewrite Hirr.
Qed.

End Steps.

(** ** The public operations return *)

Section Runs.

Context {T : Type}.
Variable comparator : T → T → bool.

Implicit Types (c : list T) (fuel : nat) (i j k n : nat).

Lemma push_unfold fuel v c :
  size c + 1 < 2 ^ 31 →
  push comparator fuel v c =
  bubble_up comparator fuel (c ++ [v]) (Z.of_nat (length c)).
Proof.
  unfold push, push_back, size. intros Hc. cbn zeta.
  rewrite length_app. cbn [length].
  replace (Z.of_nat (length c + 1) - 1) with (Z.of_nat (length c)) by lia.
  rewrite to_size_t_small, to_int32_small by lia. done.
Qed.

Lemma push_run fuel v c :
  irreflexive comparator →
  size c + 1 < 2 ^ 31 → (length c < fuel)%nat →
  ∃ c', push comparator fuel v c = Done c' ∧ c' ≡ₚ v :: c.
Proof.
  intros Hirr Hc Hfuel. rewrite push_unfold by done.
  destruct (bubble_up_run comparator fuel Hirr (c ++ [v]) (length c))
    as (c' & Hrun & Hperm).
  - unfold size in *. rewrite length_app. cbn [length]. lia.
  - rewrite length_app. cbn [length]. lia.
  - done.
  - exists c'. split; [done|]. rewrite Hperm. by rewrite Permutation_app_comm.
Qed.

Lemma heapify_start_small c :
  size c ≤ 2 ^ 31 → heapify_start c = size c - 1.
Proof.
  unfold heapify_start, size. intros Hc. destruct c as [|x c].
  - reflexivity.
  - cbn [length] in *. rewrite to_size_t_small, to_int32_small; lia.
Qed.

Lemma heapify_unfold fuel elements c :
  size elements ≤ 2 ^ 31 →
  heapify comparator fuel elements c =
  heapify_loop comparator fuel (length elements) elements.
Proof.
  intros Hc. unfold heapify, clear, assign. cbn zeta.
  rewrite heapify_start_small by done. unfold size.
  by replace (Z.to_nat (Z.of_nat (length elements) - 1 + 1))
    with (length elements) by lia.
Qed.

Lemma heapify_loop_descending fuel n c :
  heapify_loop comparator fuel n c =
  sift_down_each comparator fuel (descending n) c.
Proof.
  revert c. induction n as [|n IH]; intros c; [done|].
  cbn [heapify_loop descending sift_down_each].
  destruct (bubble_down _ _ _ _); cbn; auto.
Qed.

Lemma heapify_loop_run fuel n : ∀ c,
  fits c → (n ≤ length c)%nat → (length c < fuel)%nat →
  ∃ c', heapify_loop comparator fuel n c = Done c' ∧ c' ≡ₚ c.
Proof.
  induction n as [|n IH]; intros c Hc Hn Hfuel; [by exists c|].
  cbn [heapify_loop].
  destruct (bubble_down_run comparator fuel c n) as (c1 & -> & Hperm1).
  { done. } { unfold fits, size in Hc. lia. } { lia. }
  cbn. destruct (IH c1) as (c' & -> & Hperm).
  - unfold fits, size in *. by rewrite Hperm1.
  - rewrite Hperm1. lia.
  - by rewrite Hperm1.
  - exists c'. split; [done|]. by rewrite Hperm.
Qed.

Lemma heapify_run fuel elements c :
  fits elements → (length elements < fuel)%nat →
  ∃ c', heapify comparator fuel elements c = Done c' ∧ c' ≡ₚ elements.
Proof.
  intros Hc Hfuel. rewrite heapify_unfold.
  - by apply heapify_loop_run.
  - unfold fits, index_bound in Hc. lia.
Qed.

Lemma pop_empty fuel : pop comparator fuel [] = Done [].
Proof. reflexivity. Qed.

Lemma pop_single fuel x :
  pop comparator fuel [x] = bubble_down comparator fuel [] 0.
Proof. reflexivity. Qed.

Lemma pop_unfold fuel x m y :
  pop comparator fuel (x :: m ++ [y]) = bubble_down comparator fuel (y :: m) 0.
Proof.
  unfold pop, empty, size, swap_front_back, back. cbn [length front].
  replace (Z.of_nat (S (length (m ++ [y]))) =? 0) with false by lia.
  cbn [negb Nat.pred mbind outcome_bind].
  rewrite length_app. cbn [length].
  replace (length m + 1)%nat with (S (length m)) by lia.
  change ((x :: m ++ [y]) !! S (length m)) with ((m ++ [y]) !! length m).
  rewrite list_lookup_middle by done.
  cbn [mbind outcome_bind].
  change (<[S (length m) := x]> (<[0%nat := y]> (x :: m ++ [y])))
    with (y :: <[length m := x]> (m ++ [y])).
  rewrite insert_app_r_alt, Nat.sub_diag by done.
  change (y :: m ++ <[0%nat := x]> [y]) with ((y :: m) ++ [x]).
  unfold pop_back. cbn [app]. change (y :: m ++ [x]) with ((y :: m) ++ [x]).
  by rewrite removelast_last.
Qed.

Lemma list_ends c :
  c = [] ∨ (∃ x, c = [x]) ∨ ∃ x m y, c = x :: m ++ [y].
Proof.
  destruct c as [|x c]; [by left|right].
  destruct c as [|y m _] using rev_ind; [left|right]; eauto.
Qed.

Lemma pop_run fuel c :
  fits c → (length c ≤ fuel)%nat →
  ∃ c', pop comparator fuel c = Done c' ∧
        length c' = Nat.pred (length c) ∧
        ∀ x, head c = Some x → x :: c' ≡ₚ c.
Proof.
  intros Hc Hfuel.
  destruct (list_ends c) as [->|[[x ->]|(x & m & y & ->)]].
  - exists []. by rewrite pop_empty.
  - exists []. destruct fuel; [cbn in Hfuel; lia|]. split_and!; [done..|].
    by intros ? [= ->].
  - rewrite pop_unfold.
    destruct (bubble_down_run comparator fuel (y :: m) 0)
      as (c' & Hrun & Hperm).
    + unfold fits, size in *. rewrite length_cons, length_app in Hc.
      cbn [length] in *. lia.
    + done.
    + cbn [length] in *. rewrite length_app in Hfuel. cbn [length] in Hfuel.
      lia.
    + exists c'. split_and!; [done| |].
      * rewrite Hperm. cbn [length]. rewrite length_app. cbn. lia.
      * intros ? [= <-]. rewrite Hperm.
        change (x :: m ++ [y]) with ((x :: m) ++ [y]).
        rewrite <-Permutation_cons_append. apply perm_swap.
Qed.

Lemma push_all_run fuel values : ∀ c,
  irreflexive comparator →
  size c + Z.of_nat (length values) < 2 ^ 31 →
  (length c + length values ≤ fuel)%nat →
  ∃ c', push_all comparator fuel values c = Done c' ∧ c' ≡ₚ values ++ c.
Proof.
  induction values as [|v values IH]; intros c Hirr Hc Hfuel; [by exists c|].
  cbn [push_all length] in *.
  destruct (push_run fuel v c Hirr) as (c1 & -> & Hperm1);
    [lia..|].
  run_step. destruct (IH c1 Hirr) as (c' & -> & Hperm).
  - unfold size in *. rewrite Hperm1. cbn [length]. lia.
  - rewrite Hperm1. cbn [length]. lia.
  - exists c'. split; [done|]. rewrite Hperm, Hperm1. cbn [app].
    by rewrite Permutation_middle.
Qed.

Lemma pop_times_run fuel j : ∀ c,
  fits c → (length c ≤ fuel)%nat →
  ∃ c', pop_times comparator fuel j c = Done c' ∧
        length c' = (length c - j)%nat.
Proof.
  induction j as [|j IH]; intros c Hc Hfuel.
  { exists c. split; [done|lia]. }
  cbn [pop_times].
  destruct (pop_run fuel c) as (c1 & -> & Hlen & _); [done..|].
  run_step. destruct (IH c1) as (c' & -> & Hlen').
  - unfold fits, size in *. lia.
  - lia.
  - exists c'. split; [done|lia].
Qed.

(** [is_heap] decides the heap-order property. *)
Lemma is_heap_loop_spec c n : ∀ i,
  fits c → (i + n = length c)%nat →
  ∃ b, is_heap_loop comparator n c (Z.of_nat i) = Done b ∧
       (b = true ↔
        ∀ k x y, (i ≤ k)%nat → c !! k = Some x →
          c !! (2 * k + 1)%nat = Some y ∨ c !! (2 * k + 2)%nat = Some y →
          comparator x y = false).
Proof.
  induction n as [|n IH]; intros i Hc Hi.
  { exists true. split; [done|]. split; [|done]. intros _ k x y Hk Hx _.
    apply lookup_lt_Some in Hx. lia. }
  pose proof Hc as Hc'. unfold fits, size, index_bound in Hc'.
  assert (Z.of_nat i < index_bound - 1) as Hi1 by (unfold index_bound; lia).
  assert (Z.of_nat i < index_bound) as Hi2 by lia.
  destruct (lookup_lt_is_Some_2 c i) as [x Hx]; [lia|].
  cbn [is_heap_loop]. unfold left_child, right_child.
  rewrite (to_int32_small (Z.of_nat i)) by lia.
  rewrite has_left_child_nat, has_right_child_nat by done.
  rewrite get_left_child_index_nat, get_right_child_index_nat by done.
  rewrite !at_nat by lia. rewrite Hx.
  replace (to_size_t (Z.of_nat i + 1)) with (Z.of_nat (S i))
    by (rewrite to_size_t_small; lia).
  assert (∀ l, c !! (2 * i + 1)%nat = Some l → comparator x l = true →
    ∃ b, Done false = Done b ∧
      (b = true ↔ ∀ k x y, (i ≤ k)%nat → c !! k = Some x →
         c !! (2 * k + 1)%nat = Some y ∨ c !! (2 * k + 2)%nat = Some y →
         comparator x y = false)) as Hbadl.
  { intros l Hl Hxl. exists false. split; [done|]. split; [done|].
    intros Hall. rewrite (Hall i x l) in Hxl; auto. }
  assert (∀ r, c !! (2 * i + 2)%nat = Some r → comparator x r = true →
    ∃ b, Done false = Done b ∧
      (b = true ↔ ∀ k x y, (i ≤ k)%nat → c !! k = Some x →
         c !! (2 * k + 1)%nat = Some y ∨ c !! (2 * k + 2)%nat = Some y →
         comparator x y = false)) as Hbadr.
  { intros r Hr Hxr. exists false. split; [done|]. split; [done|].
    intros Hall. rewrite (Hall i x r) in Hxr; auto. }
  assert ((∀ y, c !! (2 * i + 1)%nat = Some y → comparator x y = false) →
          (∀ y, c !! (2 * i + 2)%nat = Some y → comparator x y = false) →
    ∃ b, is_heap_loop comparator n c (Z.of_nat (S i)) = Done b ∧
      (b = true ↔ ∀ k x y, (i ≤ k)%nat → c !! k = Some x →
         c !! (2 * k + 1)%nat = Some y ∨ c !! (2 * k + 2)%nat = Some y →
         comparator x y = false)) as Hgood.
  { intros Hl Hr. destruct (IH (S i)) as (b & -> & Hb); [done|lia|].
    exists b. split; [done|]. rewrite Hb. split.
    - intros Hall k x' y' Hk Hx' Hy'.
      assert (k = i ∨ S i ≤ k)%nat as [->|Hk'] by lia.
      + simplify_eq. destruct Hy'; auto.
      + by apply (Hall k).
    - intros Hall k x' y' Hk. apply Hall. lia. }
  assert (2 * i + 1 < length c ∨ length c ≤ 2 * i + 1)%nat as [Hl|Hl] by lia.
  - rewrite (bool_decide_eq_true_2 (2 * i + 1 < length c)%nat) by done.
    destruct (lookup_lt_is_Some_2 c _ Hl) as [l Hlx]. rewrite Hlx. run_step.
    destruct (comparator x l) eqn:Hxl; [by eapply Hbadl|].
    assert (2 * i + 2 < length c ∨ length c ≤ 2 * i + 2)%nat as [Hr|Hr] by lia.
    + rewrite (bool_decide_eq_true_2 (2 * i + 2 < length c)%nat) by done.
      destruct (lookup_lt_is_Some_2 c _ Hr) as [r Hrx]. rewrite Hrx. run_step.
      destruct (comparator x r) eqn:Hxr; [by eapply Hbadr|].
      apply Hgood; intros; by simplify_eq.
    + rewrite (bool_decide_eq_false_2 (2 * i + 2 < length c)%nat) by lia.
      run_step. apply Hgood; intros y Hy; [by simplify_eq|].
      apply lookup_lt_Some in Hy. lia.
  - rewrite (bool_decide_eq_false_2 (2 * i + 1 < length c)%nat) by lia.
    rewrite (bool_decide_eq_false_2 (2 * i + 2 < length c)%nat) by lia.
    run_step. apply Hgood; intros y Hy; apply lookup_lt_Some in Hy; lia.
Qed.

Lemma is_heap_spec c :
  fits c →
  ∃ b, is_heap comparator c = Done b ∧ (b = true ↔ heap_order comparator c).
Proof.
  intros Hc. destruct (is_heap_loop_spec c (length c) 0 Hc) as (b & Hb & Hiff).
  { done. }
  exists b. split; [done|]. rewrite Hiff. unfold heap_order. split.
  - intros Hall i x y. apply Hall. lia.
  - intros Hall k x y _. apply Hall.
Qed.

Lemma is_heap_true c :
  fits c → heap_order comparator c → is_heap comparator c = Done true.
Proof.
  intros Hc Hheap. destruct (is_heap_spec c Hc) as (b & -> & Hb).
  f_equal. by apply Hb.
Qed.

End Runs.

(** ** Heap order under a strict weak ordering *)

Section Order.

Context {T : Type}.
Variable comparator : T → T → bool.
Hypothesis Hswo : strict_weak_order comparator.

Implicit Types (c : list T) (fuel : nat) (i j k lo : nat).

Lemma cmp_irrefl a : comparator a a = false.
Proof. apply Hswo. Qed.

Lemma cmp_asym a b : comparator a b = true → comparator b a = false.
Proof.
  intros Hab. destruct (comparator b a) eqn:Hba; [|done].
  pose proof (swo_transitive _ Hswo _ _ _ Hab Hba) as Haa.
  by rewrite cmp_irrefl in Haa.
Qed.

(** The child [bubble_down] picks is not worse than either child. *)
Lemma best_child_best c j y k z :
  c !! best_child comparator c j = Some y →
  (k = 2 * j + 1 ∨ k = 2 * j + 2)%nat → c !! k = Some z →
  comparator y z = false.
Proof.
  unfold best_child. intros Hy Hk Hz.
  destruct (c !! (2 * j + 1)%nat) as [l|] eqn:Hl; [|congruence].
  destruct (c !! (2 * j + 2)%nat) as [r|] eqn:Hr.
  - destruct (comparator l r) eqn:Hlr; destruct Hk; simplify_eq;
      auto using cmp_asym, cmp_irrefl.
  - destruct Hk; simplify_eq. apply cmp_irrefl.
Qed.

Lemma heap_from_order c : heap_from comparator 0 c ↔ heap_order comparator c.
Proof.
  split.
  - intros Hc i x y Hx [Hy|Hy].
    + apply (Hc (2 * i + 1)%nat); [lia..| |done].
      by replace ((2 * i + 1 - 1) / 2)%nat with i by lia.
    + apply (Hc (2 * i + 2)%nat); [lia..| |done].
      by replace ((2 * i + 2 - 1) / 2)%nat with i by lia.
  - intros Hc k Hk _ x y Hx Hy. apply (Hc ((k - 1) / 2)%nat x y Hx).
    assert (k = 2 * ((k - 1) / 2) + 1 ∨ k = 2 * ((k - 1) / 2) + 2)%nat
      as [<-| <-] by lia; auto.
Qed.

Lemma bubble_down_heap lo fuel : ∀ c j c',
  fits c → (lo ≤ j)%nat → Z.of_nat j < index_bound →
  down_inv comparator lo j c →
  bubble_down comparator fuel c (Z.of_nat j) = Done c' →
  heap_from comparator lo c'.
Proof.
  induction fuel as [|fuel IH]; intros c j c' Hc Hlo Hj [Hin Hgp] Hrun; [done|].
  destruct (decide (2 * j + 1 < length c)%nat) as [Hl|Hl].
  - destruct (lookup_lt_is_Some_2 c j) as [x Hx]; [lia|].
    pose proof (best_child_cases comparator c j Hl) as Hs.
    remember (best_child comparator c j) as s eqn:Es.
    destruct (lookup_lt_is_Some_2 c s) as [y Hy]; [lia|].
    rewrite (bubble_down_unfold comparator fuel c j x y) in Hrun
      by (done || by subst s).
    rewrite <-Es in Hrun.
    pose proof (λ k z, best_child_best c j y k z ltac:(by subst s)) as Hbest.
    destruct (comparator x y) eqn:Hxy.
    + eapply IH; [| | | |exact Hrun].
      * unfold fits, size. by rewrite length_exchange.
      * lia.
      * unfold fits, size, index_bound in *. lia.
      * split.
        -- intros k Hk Hlok Hne a b.
           rewrite !lookup_exchange by lia. intros Ha Hb.
           assert ((k - 1) / 2 = j ∨ (k - 1) / 2 ≠ j)%nat as [Hpk|Hpk] by lia.
           ++ rewrite decide_False, decide_True in Ha by lia.
              assert (k = s ∨ k ≠ s) as [->|Hks] by lia.
              ** rewrite decide_True in Hb by done. simplify_eq.
                 by apply cmp_asym.
              ** rewrite !decide_False in Hb by lia. simplify_eq.
                 apply (Hbest k); [lia|done].
           ++ rewrite !decide_False in Ha by lia.
              rewrite decide_False in Hb by lia.
              assert (k = j ∨ k ≠ j) as [->|Hkj] by lia.
              ** rewrite decide_True in Hb by done.
                 apply (Hgp ltac:(lia) ltac:(lia) s ltac:(lia) ltac:(lia));
                   [|done].
                 by replace (((s - 1) / 2 - 1) / 2)%nat
                   with ((j - 1) / 2)%nat by lia.
              ** rewrite decide_False in Hb by done. by apply (Hin k).
        -- intros Hspos Hlos k Hk Hpk a b.
           rewrite !lookup_exchange by lia.
           rewrite decide_False, decide_True by lia.
           rewrite !decide_False by lia.
           intros Ha Hb. simplify_eq.
           apply (Hin k Hk ltac:(lia) ltac:(lia)); [|done].
           by rewrite Hpk.
    + simplify_eq. intros k Hk Hlok a b Ha Hb.
      assert ((k - 1) / 2 = j ∨ (k - 1) / 2 ≠ j)%nat as [Hpk|Hpk] by lia.
      * rewrite Hpk in Ha. simplify_eq.
        eapply (swo_negatively_transitive _ Hswo); [exact Hxy|].
        apply (Hbest k); [lia|done].
      * by apply (Hin k).
  - rewrite bubble_down_leaf in Hrun by (done || lia). simplify_eq.
    intros k Hk Hlok a b Ha Hb.
    assert ((k - 1) / 2 = j ∨ (k - 1) / 2 ≠ j)%nat as [Hpk|Hpk] by lia.
    + apply lookup_lt_Some in Hb. lia.
    + by apply (Hin k).
Qed.

Lemma bubble_up_heap fuel : ∀ c j c',
  size c < 2 ^ 31 → (j < length c)%nat →
  up_inv comparator j c →
  bubble_up comparator fuel c (Z.of_nat j) = Done c' →
  heap_from comparator 0 c'.
Proof.
  induction fuel as [|fuel IH]; intros c j c' Hc Hj [Hin Hgp] Hrun; [done|].
  destruct (lookup_lt_is_Some_2 c j) as [x Hx]; [lia|].
  destruct (lookup_lt_is_Some_2 c ((j - 1) / 2)) as [p Hp]; [lia|].
  rewrite (bubble_up_unfold comparator fuel c j x p) in Hrun by done.
  destruct (comparator p x) eqn:Hpx.
  - assert (0 < j)%nat as Hpos.
    { destruct j; [|lia]. change ((0 - 1) / 2)%nat with 0%nat in Hp.
      simplify_eq. by rewrite cmp_irrefl in Hpx. }
    remember ((j - 1) / 2)%nat as pj eqn:Epj.
    eapply IH; [| | |exact Hrun].
    + unfold size. by rewrite length_exchange.
    + rewrite length_exchange. lia.
    + split.
      * intros k Hk Hne a b.
        rewrite !lookup_exchange by lia. intros Ha Hb.
        rewrite (decide_False (P := k = pj)) in Hb by done.
        assert (k = j ∨ k ≠ j) as [->|Hkj] by lia.
        { rewrite decide_True in Ha by lia.
          rewrite decide_True in Hb by done. simplify_eq.
          by apply cmp_asym. }
        rewrite decide_False in Hb by done.
        assert ((k - 1) / 2 = pj ∨ (k - 1) / 2 = j ∨
                ((k - 1) / 2 ≠ pj ∧ (k - 1) / 2 ≠ j))%nat
          as [Hpk|[Hpk|[Hpk Hpk']]] by lia.
        -- rewrite decide_True in Ha by done.
           assert (a = x) as -> by congruence.
           destruct (comparator x b) eqn:Hab; [|done].
           pose proof (swo_transitive _ Hswo _ _ _ Hpx Hab) as Hpb.
           rewrite (Hin k Hk Hkj p b) in Hpb; [done| |done].
           by rewrite Hpk.
        -- rewrite decide_False, decide_True in Ha by lia.
           apply (Hgp Hpos k Hk Hpk); [|done].
           by rewrite Hpk, <-Epj.
        -- rewrite !decide_False in Ha by done. by apply (Hin k).
      * intros Hpjpos k Hk Hpk a b. rewrite Hpk.
        rewrite !lookup_exchange by lia.
        rewrite (decide_False (P := ((pj - 1) / 2)%nat = pj)) by lia.
        rewrite (decide_False (P := ((pj - 1) / 2)%nat = j)) by lia.
        rewrite (decide_False (P := k = pj)) by lia.
        intros Ha Hb.
        pose proof (Hin pj Hpjpos ltac:(lia) a p Ha Hp) as Hap.
        assert (k = j ∨ k ≠ j) as [->|Hkj] by lia.
        -- rewrite decide_True in Hb by done. by simplify_eq.
        -- rewrite decide_False in Hb by done.
           eapply (swo_negatively_transitive _ Hswo); [exact Hap|].
           apply (Hin k Hk Hkj); [|done]. by rewrite Hpk.
  - simplify_eq. intros k Hk _ a b Ha Hb.
    assert (k = j ∨ k ≠ j) as [->|Hkj] by lia.
    + by simplify_eq.
    + by apply (Hin k).
Qed.

(** *** The public operations keep the heap order *)

Lemma push_ok fuel v c :
  size c + 1 < 2 ^ 31 → (length c < fuel)%nat →
  heap_order comparator c →
  ∃ c', push comparator fuel v c = Done c' ∧ c' ≡ₚ v :: c ∧
        heap_order comparator c'.
Proof.
  intros Hc Hfuel Hheap.
  destruct (push_run comparator fuel v c) as (c' & Hrun & Hperm);
    [apply Hswo|done..|].
  exists c'. split_and!; [done..|].
  rewrite push_unfold in Hrun by done.
  apply heap_from_order. apply heap_from_order in Hheap.
  eapply bubble_up_heap; [| | |exact Hrun].
  - unfold size in *. rewrite length_app. cbn [length]. lia.
  - rewrite length_app. cbn [length]. lia.
  - split.
    + intros k Hk Hne a b Ha Hb.
      pose proof (lookup_lt_Some _ _ _ Hb) as Hlt.
      rewrite length_app in Hlt. cbn [length] in Hlt.
      rewrite lookup_app_l in Ha, Hb by lia.
      apply (Hheap k); [lia..|done|done].
    + intros Hpos k Hk Hpk a b _ Hb.
      apply lookup_lt_Some in Hb.
      rewrite length_app in Hb. cbn [length] in Hb. lia.
Qed.

Lemma heapify_loop_ok fuel n : ∀ c,
  fits c → (n ≤ length c)%nat → (length c < fuel)%nat →
  heap_from comparator n c →
  ∃ c', heapify_loop comparator fuel n c = Done c' ∧ c' ≡ₚ c ∧
        heap_from comparator 0 c'.
Proof.
  induction n as [|n IH]; intros c Hc Hn Hfuel Hheap; [by exists c|].
  cbn [heapify_loop].
  assert (Z.of_nat n < index_bound) as Hn'
    by (unfold fits, size in Hc; lia).
  destruct (bubble_down_run comparator fuel c n) as (c1 & Hrun1 & Hperm1);
    [done|done|lia|].
  rewrite Hrun1. run_step.
  destruct (IH c1) as (c' & -> & Hperm & Hheap').
  - unfold fits, size in *. by rewrite Hperm1.
  - rewrite Hperm1. lia.
  - by rewrite Hperm1.
  - eapply (bubble_down_heap n); [..|exact Hrun1]; [done|lia|done|].
    split.
    + intros k Hk Hlo Hne. apply Hheap; [done|lia].
    + lia.
  - exists c'. split_and!; [done| |done]. by rewrite Hperm.
Qed.

Lemma heapify_ok fuel elements c :
  fits elements → (length elements < fuel)%nat →
  ∃ c', heapify comparator fuel elements c = Done c' ∧ c' ≡ₚ elements ∧
        heap_order comparator c'.
Proof.
  intros Hc Hfuel. rewrite heapify_unfold
    by (unfold fits, index_bound in Hc; lia).
  destruct (heapify_loop_ok fuel (length elements) elements)
    as (c' & Hrun & Hperm & Hheap); [done..| |].
  - intros k Hk Hlo a b _ Hb. apply lookup_lt_Some in Hb. lia.
  - exists c'. by rewrite <-heap_from_order.
Qed.

Lemma pop_ok fuel c :
  fits c → (length c ≤ fuel)%nat →
  heap_order comparator c →
  ∃ c', pop comparator fuel c = Done c' ∧
        length c' = Nat.pred (length c) ∧
        (∀ x, head c = Some x → x :: c' ≡ₚ c) ∧
        heap_order comparator c'.
Proof.
  intros Hc Hfuel Hheap.
  destruct (pop_run comparator fuel c) as (c' & Hrun & Hlen & Hperm);
    [done..|].
  exists c'. split_and!; [done..|].
  destruct (list_ends c) as [->|[[x ->]|(x & m & y & ->)]].
  - rewrite pop_empty in Hrun. by simplify_eq.
  - destruct c'; [|done]. by intros [|i] ???.
  - rewrite pop_unfold in Hrun.
    apply heap_from_order. apply heap_from_order in Hheap.
    change 0 with (Z.of_nat 0) in Hrun.
    eapply (bubble_down_heap 0); [..|exact Hrun]; [|done|done|].
    + unfold fits, size in *. rewrite length_cons, length_app in Hc.
      cbn [length] in *. lia.
    + split; [|lia].
      intros k Hk _ Hne a b Ha Hb.
      pose proof (lookup_lt_Some _ _ _ Hb) as Hlt. cbn [length] in Hlt.
      apply (Hheap k Hk); [lia| |].
      * destruct ((k - 1) / 2)%nat as [|pk] eqn:Epk; [done|].
        rewrite lookup_cons_ne_0 in Ha |- * by done.
        by apply lookup_app_l_Some.
      * destruct k as [|k']; [lia|].
        rewrite lookup_cons_ne_0 in Hb |- * by done.
        by apply lookup_app_l_Some.
Qed.

(** The root of a heap is not worse than any element. *)
Lemma root_best c r :
  heap_order comparator c → c !! 0%nat = Some r →
  ∀ k z, c !! k = Some z → comparator r z = false.
Proof.
  intros Hheap Hr. apply heap_from_order in Hheap.
  induction k as [k IH] using lt_wf_ind. intros z Hz.
  destruct k as [|k]; [simplify_eq; apply cmp_irrefl|].
  destruct (lookup_lt_is_Some_2 c ((S k - 1) / 2)) as [p Hp].
  { apply lookup_lt_Some in Hz. lia. }
  eapply (swo_negatively_transitive _ Hswo).
  - apply (IH ((S k - 1) / 2)%nat); [lia|done].
  - apply (Hheap (S k)); [lia..|done|done].
Qed.

Lemma push_all_ok fuel values : ∀ c,
  size c + Z.of_nat (length values) < 2 ^ 31 →
  (length c + length values ≤ fuel)%nat →
  heap_order comparator c →
  ∃ c', push_all comparator fuel values c = Done c' ∧ c' ≡ₚ values ++ c ∧
        heap_order comparator c'.
Proof.
  induction values as [|v values IH]; intros c Hc Hfuel Hheap; [by exists c|].
  cbn [push_all length] in *.
  destruct (push_ok fuel v c) as (c1 & -> & Hperm1 & Hheap1); [lia..|done|].
  run_step. destruct (IH c1) as (c' & -> & Hperm & Hheap').
  - unfold size in *. rewrite Hperm1. cbn [length]. lia.
  - rewrite Hperm1. cbn [length]. lia.
  - done.
  - exists c'. split_and!; [done| |done]. rewrite Hperm, Hperm1. cbn [app].
    by rewrite Permutation_middle.
Qed.

(** *** Sequences of operations *)

Lemma run_ok fuel ops : ∀ c,
  Z.of_nat (peak_size ops (length c)) < index_bound →
  (peak_size ops (length c) < fuel)%nat →
  heap_order comparator c →
  ∃ c', run comparator fuel ops c = Done c' ∧ fits c' ∧
        heap_order comparator c'.
Proof.
  induction ops as [|o ops IH]; intros c Hpeak Hfuel Hheap.
  { exists c. by split_and!. }
  cbn [peak_size run] in *.
  assert (∃ c1, apply comparator fuel o c = Done c1 ∧
                length c1 = size_after o (length c) ∧
                heap_order comparator c1) as (c1 & -> & Hlen & Hheap1).
  { assert (size_after o (length c) ≤ peak_size ops (size_after o (length c)))
      %nat as Hle by (destruct ops; cbn [peak_size]; lia).
    unfold index_bound in Hpeak.
    destruct o as [v|elements|]; cbn [apply size_after] in *.
    - destruct (push_ok fuel v c) as (c1 & Hrun & Hperm & Hheap1);
        [unfold size; lia|lia|done|].
      exists c1. split_and!; [done| |done]. by rewrite Hperm.
    - destruct (heapify_ok fuel elements c) as (c1 & Hrun & Hperm & Hheap1);
        [unfold fits, size, index_bound; lia|lia|].
      exists c1. split_and!; [done| |done]. by rewrite Hperm.
    - destruct (pop_ok fuel c) as (c1 & Hrun & Hlen & _ & Hheap1);
        [unfold fits, size, index_bound; lia|lia|done|].
      by exists c1. }
  run_step. apply IH; [rewrite Hlen; lia..|done].
Qed.

End Order.

(** ** The accessors are guarded at every call site *)

Section Guards.

Context {T : Type}.
Variable comparator : T → T → bool.

Implicit Types (c : list T) (fuel : nat) (index : Z).

Lemma bind_guard {A B} (m : outcome A) (f : A → outcome B) :
  index_unavailable m = false →
  (∀ a, index_unavailable (f a) = false) →
  index_unavailable (m ≫= f) = false.
Proof. destruct m; cbn; auto. Qed.

Lemma at_guard c n : index_unavailable (at_ c n) = false.
Proof. unfold at_. by destruct (c !! _). Qed.

Lemma left_child_guard c index :
  has_left_child c index = true →
  index_unavailable (left_child c index) = false.
Proof. unfold left_child. intros ->. apply at_guard. Qed.

Lemma right_child_guard c index :
  has_right_child c index = true →
  index_unavailable (right_child c index) = false.
Proof. unfold right_child. intros ->. apply at_guard. Qed.

Lemma parent_guard c index :
  has_parent c index = true →
  index_unavailable (parent c index) = false.
Proof. unfold parent. intros ->. apply at_guard. Qed.

Lemma swap_at_guard c i j : index_unavailable (swap_at c i j) = false.
Proof.
  unfold swap_at. apply bind_guard; [apply at_guard|intros x].
  apply bind_guard; [apply at_guard|done].
Qed.

Lemma bubble_up_guard fuel : ∀ c index,
  index_unavailable (bubble_up comparator fuel c index) = false.
Proof.
  induction fuel as [|fuel IH]; intros c index; [done|].
  cbn [bubble_up]. apply bind_guard.
  - destruct (has_parent c index) eqn:Hp; [|done]. cbn [and_then].
    apply bind_guard; [by apply parent_guard|intros p].
    apply bind_guard; [apply at_guard|done].
  - intros [|]; [|done].
    apply bind_guard; [apply swap_at_guard|auto].
Qed.

Lemma bubble_down_guard fuel : ∀ c index,
  index_unavailable (bubble_down comparator fuel c index) = false.
Proof.
  induction fuel as [|fuel IH]; intros c index; [done|].
  cbn [bubble_down]. destruct (has_left_child c index) eqn:Hl; [|done].
  apply bind_guard.
  - destruct (has_right_child c index) eqn:Hr; [|done]. cbn [and_then].
    apply bind_guard; [by apply left_child_guard|intros l].
    apply bind_guard; [by apply right_child_guard|done].
  - intros right_better.
    apply bind_guard; [apply at_guard|intros x].
    apply bind_guard; [apply at_guard|intros y].
    destruct (comparator x y); [|done].
    apply bind_guard; [apply swap_at_guard|auto].
Qed.

Lemma heapify_loop_guard fuel n : ∀ c,
  index_unavailable (heapify_loop comparator fuel n c) = false.
Proof.
  induction n as [|n IH]; intros c; [done|]. cbn [heapify_loop].
  apply bind_guard; [apply bubble_down_guard|auto].
Qed.

Lemma is_heap_loop_guard n : ∀ c i,
  index_unavailable (is_heap_loop comparator n c i) = false.
Proof.
  induction n as [|n IH]; intros c i; [done|]. cbn [is_heap_loop].
  apply bind_guard.
  - destruct (has_left_child c (to_int32 i)) eqn:Hl; [|done].
    cbn [and_then]. apply bind_guard; [apply at_guard|intros x].
    apply bind_guard; [by apply left_child_guard|done].
  - intros [|]; [done|]. apply bind_guard.
    + destruct (has_right_child c (to_int32 i)) eqn:Hr; [|done].
      cbn [and_then]. apply bind_guard; [apply at_guard|intros x].
      apply bind_guard; [by apply right_child_guard|done].
    + intros [|]; [done|]. apply IH.
Qed.

Lemma front_guard c : index_unavailable (front c) = false.
Proof. by destruct c. Qed.

Lemma back_guard c : index_unavailable (back c) = false.
Proof. unfold back. by destruct (c !! _). Qed.

Lemma pop_guard fuel c : index_unavailable (pop comparator fuel c) = false.
Proof.
  unfold pop. destruct (negb (empty c)); [|done].
  apply bind_guard.
  - unfold swap_front_back. apply bind_guard; [apply front_guard|intros x].
    apply bind_guard; [apply back_guard|done].
  - intros c1. apply bind_guard; [by destruct c1|intros c2].
    apply bubble_down_guard.
Qed.

End Guards.

(** ** The comparators of the examples *)

Lemma less_strict_total_order : strict_total_order less.
Proof.
  unfold less. split; [split|].
  - intros a. lia.
  - intros a b d. lia.
  - intros a b d. lia.
  - intros a b. lia.
Qed.

Lemma greater_strict_total_order : strict_total_order greater.
Proof.
  unfold greater. split; [split|].
  - intros a. lia.
  - intros a b d. lia.
  - intros a b d. lia.
  - intros a b. lia.
Qed.

Lemma less_strict_weak_order : strict_weak_order less.
Proof. apply less_strict_total_order. Qed.

Lemma less_irreflexive : irreflexive less.
Proof. apply less_strict_weak_order. Qed.

Lemma less_equal_not_irreflexive : ¬ irreflexive less_equal.
Proof. intros H. specialize (H 0). done. Qed.

(** * The claims of the specification *)

(** ** Invariant preservation *)

(** C1.  Every sequence of [push], [heapify] and [pop] calls, with any
    arguments, applied to an empty heap returns, and afterwards
    [is_heap()] returns true: no element is worse than one of its
    children.  The comparator is a strict weak ordering, and the heap
    never holds 2^30 elements or more. *)
Theorem invariant_preservation {T} (comparator : T → T → bool) fuel
    (ops : list (@operation T)) :
  strict_weak_order comparator →
  Z.of_nat (peak_size ops 0) < index_bound →
  (peak_size ops 0 < fuel)%nat →
  ∃ c, run comparator fuel ops [] = Done c ∧
       is_heap comparator c = Done true ∧
       heap_order comparator c.
Proof.
  intros Hswo Hpeak Hfuel.
  destruct (run_ok comparator Hswo fuel ops []) as (c & Hrun & Hc & Hheap);
    [done..| |].
  - by intros [|i] ???.
  - exists c. split_and!; [done| |done]. by apply is_heap_true.
Qed.

Lemma invariant_preservation_witness :
  ∃ c, run less 8 sample_operations [] = Done c ∧
       is_heap less c = Done true ∧
       heap_order less c.
Proof.
  apply (invariant_preservation less 8 sample_operations).
  - apply less_strict_weak_order.
  - vm_compute. reflexivity.
  - vm_compute. lia.
Defined.

(** ** Polarity of the default comparator *)

(** C2, as the specification states it, fails: with [std::less] no
    amount of fuel makes [top()] return 1 after [heapify] of the sample. *)
Lemma default_heap_is_not_min_heap :
  ¬ ∃ fuel c, heapify less fuel sample [] = Done c ∧ top c = Done 1.
Proof.
  intros (fuel & c & Hrun & Htop).
  do 2 (destruct fuel as [|fuel]; [by vm_compute in Hrun|]).
  vm_compute in Hrun. injection Hrun as <-. discriminate Htop.
Qed.

(** C2, amended.  With the default comparator (the natural less-than
    ordering) the heap is a max-heap: after [heapify([5,3,8,1,9,2])],
    [top()] returns 9, and repeatedly reading [top()] then calling
    [pop()] until empty yields the non-increasing sequence
    9,8,5,3,2,1. *)
Theorem default_heap_is_max_heap fuel :
  (6 < fuel)%nat →
  ∃ c, heapify less fuel sample [] = Done c ∧
       top c = Done 9 ∧
       drain less fuel 6 c = Done [9; 8; 5; 3; 2; 1].
Proof.
  intros Hfuel. do 7 (destruct fuel as [|fuel]; [lia|]).
  exists [9; 5; 8; 1; 3; 2]. by vm_compute.
Qed.

Lemma default_heap_is_max_heap_witness :
  ∃ c, heapify less 7 sample [] = Done c ∧
       top c = Done 9 ∧
       drain less 7 6 c = Done [9; 8; 5; 3; 2; 1].
Proof. apply (default_heap_is_max_heap 7). lia. Defined.

(** The opposite comparator gives the order the specification expects of
    the default one. *)
Example greater_heap_is_min_heap :
  ∃ c, heapify greater 7 sample [] = Done c ∧
       top c = Done 1 ∧
       drain greater 7 6 c = Done [1; 2; 3; 5; 8; 9].
Proof. exists [1; 3; 2; 5; 9; 8]. by vm_compute. Qed.

(** ** Bulk load *)

(** [descending n] lists [n - 1], ..., [0]: position [k] holds
    [n - 1 - k]. *)
Lemma descending_lookup n k :
  (k < n)%nat → descending n !! k = Some (n - 1 - k)%nat.
Proof.
  revert k. induction n as [|n IH]; intros k Hk; [lia|].
  destruct k as [|k]; cbn [descending].
  - cbn. f_equal. lia.
  - rewrite lookup_cons_ne_0 by done. cbn [Nat.pred].
    rewrite IH by lia. f_equal. lia.
Qed.

Lemma length_descending n : length (descending n) = n.
Proof. induction n; cbn; auto. Qed.

(** C3.  Whatever the heap holds, [heapify] discards it, copies the
    input into the container in its given order, and then sifts down
    exactly once at every index from [n - 1] down to [0], in strictly
    decreasing order; the result holds the elements of the input and
    nothing else.  The input has fewer than 2^30 elements. *)
Theorem heapify_replaces_contents {T} (comparator : T → T → bool) fuel
    (elements c : list T) :
  fits elements → (length elements < fuel)%nat →
  heapify comparator fuel elements c =
    sift_down_each comparator fuel (descending (length elements)) elements ∧
  length (descending (length elements)) = length elements ∧
  (∀ k, (k < length elements)%nat →
        descending (length elements) !! k =
        Some (length elements - 1 - k)%nat) ∧
  ∃ c', heapify comparator fuel elements c = Done c' ∧ c' ≡ₚ elements.
Proof.
  intros Hc Hfuel. split_and!.
  - rewrite heapify_unfold by (unfold fits, index_bound in Hc; lia).
    apply heapify_loop_descending.
  - apply length_descending.
  - intros k. apply descending_lookup.
  - by apply heapify_run.
Qed.

Lemma heapify_replaces_contents_witness :
  heapify less 4 [1; 2; 3] [10] =
    sift_down_each less 4 (descending 3) [1; 2; 3] ∧
  length (descending 3) = 3%nat ∧
  (∀ k, (k < 3)%nat → descending 3 !! k = Some (3 - 1 - k)%nat) ∧
  ∃ c', heapify less 4 [1; 2; 3] [10] = Done c' ∧ c' ≡ₚ [1; 2; 3].
Proof.
  apply (heapify_replaces_contents less 4 [1; 2; 3] [10]).
  - vm_compute. reflexivity.
  - vm_compute. lia.
Defined.

(** The example of the specification: push 10, then [heapify([1,2,3])];
    three elements remain and 10 is not among them. *)
Example heapify_after_push :
  ∃ c, (c ← push less 4 10 []; heapify less 4 [1; 2; 3] c) = Done c ∧
       size c = 3 ∧ 10 ∉ c.
Proof.
  exists [3; 2; 1]. split_and!; [by vm_compute..|].
  rewrite !not_elem_of_cons. split_and!; [done..|]. apply not_elem_of_nil.
Qed.

(** ** Extraction *)

(** C4.  [pop()] on an empty heap does not fail and leaves the heap as
    it was.  On a non-empty heap it exchanges the first and the last
    element, removes the last, sifts down from index 0, and returns
    with one element fewer.  The heap has fewer than 2^30 elements. *)
Theorem pop_contract {T} (comparator : T → T → bool) fuel (c : list T) :
  fits c → (length c ≤ fuel)%nat →
  pop comparator fuel [] = Done [] ∧
  (∀ x m y, c = x :: m ++ [y] →
     pop comparator fuel c =
     bubble_down comparator fuel (removelast (y :: m ++ [x])) 0) ∧
  (∀ x, c = [x] →
     pop comparator fuel c = bubble_down comparator fuel (removelast [x]) 0) ∧
  (c ≠ [] → ∃ c', pop comparator fuel c = Done c' ∧ size c' = size c - 1).
Proof.
  intros Hc Hfuel. split_and!.
  - apply pop_empty.
  - intros x m y ->. rewrite pop_unfold.
    change (y :: m ++ [x]) with ((y :: m) ++ [x]).
    by rewrite removelast_last.
  - by intros x ->.
  - intros Hne.
    destruct (pop_run comparator fuel c) as (c' & Hrun & Hlen & _); [done..|].
    exists c'. split; [done|]. unfold size. rewrite Hlen.
    destruct c; [done|]. cbn [length]. lia.
Qed.

Lemma pop_contract_witness :
  pop less 6 [] = Done [] ∧
  (∀ x m y, [9; 5; 8; 1; 3; 2] = x :: m ++ [y] →
     pop less 6 [9; 5; 8; 1; 3; 2] =
     bubble_down less 6 (removelast (y :: m ++ [x])) 0) ∧
  (∀ x, [9; 5; 8; 1; 3; 2] = [x] →
     pop less 6 [9; 5; 8; 1; 3; 2] =
     bubble_down less 6 (removelast [x]) 0) ∧
  ([9; 5; 8; 1; 3; 2] ≠ [] →
   ∃ c', pop less 6 [9; 5; 8; 1; 3; 2] = Done c' ∧
         size c' = size [9; 5; 8; 1; 3; 2] - 1).
Proof.
  apply (pop_contract less 6 [9; 5; 8; 1; 3; 2]).
  - vm_compute. reflexivity.
  - vm_compute. lia.
Defined.

(** ** Two ways to build a heap *)

(** C5.  Pushing the elements of a collection one at a time, in any
    order, and a single [heapify] of the collection yield heaps with the
    same multiset of elements and the same [top()].  The comparator is a
    strict total ordering; the collection has fewer than 2^30
    elements. *)
Theorem round_trip_construction {T} (comparator : T → T → bool) fuel
    (values values' c0 : list T) :
  strict_total_order comparator →
  values' ≡ₚ values →
  fits values → (length values < fuel)%nat →
  ∃ c1 c2,
    push_all comparator fuel values' [] = Done c1 ∧
    heapify comparator fuel values c0 = Done c2 ∧
    c1 ≡ₚ c2 ∧ top c1 = top c2.
Proof.
  intros [Hswo Hconn] Hvalues Hc Hfuel.
  destruct (push_all_ok comparator Hswo fuel values' [])
    as (c1 & Hrun1 & Hperm1 & Hheap1).
  { unfold fits, size, index_bound in *. rewrite Hvalues. cbn [length]. lia. }
  { rewrite Hvalues. cbn [length]. lia. }
  { by intros [|i] ???. }
  destruct (heapify_ok comparator Hswo fuel values c0)
    as (c2 & Hrun2 & Hperm2 & Hheap2); [done..|].
  rewrite app_nil_r in Hperm1.
  assert (c1 ≡ₚ c2) as Hperm by (by rewrite Hperm1, Hperm2).
  exists c1, c2. split_and!; [done..|].
  destruct c1 as [|r1 c1], c2 as [|r2 c2].
  - done.
  - by apply Permutation_nil_cons in Hperm.
  - symmetry in Hperm. by apply Permutation_nil_cons in Hperm.
  - cbn. f_equal. apply Hconn.
    + assert (r2 ∈ r1 :: c1) as [k Hk]%list_elem_of_lookup
        by (rewrite Hperm; left).
      by apply (root_best comparator Hswo (r1 :: c1) r1 Hheap1 eq_refl k).
    + assert (r1 ∈ r2 :: c2) as [k Hk]%list_elem_of_lookup
        by (rewrite <-Hperm; left).
      by apply (root_best comparator Hswo (r2 :: c2) r2 Hheap2 eq_refl k).
Qed.

Lemma round_trip_construction_witness :
  ∃ c1 c2,
    push_all less 7 [2; 9; 1; 8; 3; 5] [] = Done c1 ∧
    heapify less 7 sample [10] = Done c2 ∧
    c1 ≡ₚ c2 ∧ top c1 = top c2.
Proof.
  apply (round_trip_construction less 7 sample [2; 9; 1; 8; 3; 5] [10]).
  - apply less_strict_total_order.
  - symmetry. apply (Permutation_rev sample).
  - vm_compute. reflexivity.
  - vm_compute. lia.
Defined.

(** The ordering has to be total for the roots to coincide: under a
    weak ordering with distinct equivalent elements either of them can
    end up at the root. *)
Lemma by_key_strict_weak_order : strict_weak_order by_key.
Proof.
  unfold by_key. split.
  - intros a. lia.
  - intros a b d. lia.
  - intros a b d. lia.
Qed.

Example round_trip_needs_total_order :
  push_all by_key 3 [(1, 1); (1, 0)] [] = Done [(1, 1); (1, 0)] ∧
  heapify by_key 3 [(1, 0); (1, 1)] [] = Done [(1, 0); (1, 1)] ∧
  top [(1, 1); (1, 0)] ≠ top [(1, 0); (1, 1)].
Proof. split_and!; [by vm_compute..|]. by intros [=]. Qed.

(** ** The accessor failure never surfaces *)

(** The failure exists: an accessor called without its guard throws. *)
Example left_child_unguarded :
  left_child ([] : list Z) 0 = Throw (IndexUnavailable LeftChild) ∧
  right_child [1; 2] 0 = Throw (IndexUnavailable RightChild) ∧
  parent [1; 2] 2 = Throw (IndexUnavailable Parent).
Proof. by vm_compute. Qed.

(** C6.  The [out_of_range] thrown by [left_child], [right_child] and
    [parent] is unreachable from every public operation: an accessor
    throws it exactly when its [has_*] predicate is false, every call
    site checks that predicate first, and so neither loop and no public
    operation, on any heap, with any arguments and any comparator,
    leaves by it. *)
Theorem index_unavailable_unreachable {T} (comparator : T → T → bool) fuel
    (value : T) (elements c : list T) (index : Z) :
  index_unavailable (left_child c index) = negb (has_left_child c index) ∧
  index_unavailable (right_child c index) = negb (has_right_child c index) ∧
  index_unavailable (parent c index) = negb (has_parent c index) ∧
  index_unavailable (bubble_up comparator fuel c index) = false ∧
  index_unavailable (bubble_down comparator fuel c index) = false ∧
  index_unavailable (push comparator fuel value c) = false ∧
  index_unavailable (heapify comparator fuel elements c) = false ∧
  index_unavailable (pop comparator fuel c) = false ∧
  index_unavailable (is_heap comparator c) = false ∧
  index_unavailable (top c) = false.
Proof.
  split_and!.
  - unfold left_child. destruct (has_left_child c index); [apply at_guard|done].
  - unfold right_child.
    destruct (has_right_child c index); [apply at_guard|done].
  - unfold parent. destruct (has_parent c index); [apply at_guard|done].
  - apply bubble_up_guard.
  - apply bubble_down_guard.
  - apply bubble_up_guard.
  - apply heapify_loop_guard.
  - apply pop_guard.
  - apply is_heap_loop_guard.
  - apply front_guard.
Qed.

(** ** Size accounting *)

(** C7.  Each [push] returns and makes [size()] one larger; after [k]
    pushes followed by [j] pops, [j <= k], [size()] is [k - j].  The
    comparator is irreflexive, and the heap stays below 2^30
    elements. *)
Theorem size_accounting {T} (comparator : T → T → bool) fuel
    (value : T) (c values : list T) (j : nat) :
  irreflexive comparator →
  size c + 1 < index_bound → (length c < fuel)%nat →
  fits values → (length values ≤ fuel)%nat →
  (j ≤ length values)%nat →
  (∃ c', push comparator fuel value c = Done c' ∧ size c' = size c + 1) ∧
  (∃ c', (c ← push_all comparator fuel values []; pop_times comparator fuel j c)
         = Done c' ∧
         size c' = Z.of_nat (length values) - Z.of_nat j).
Proof.
  unfold fits, size, index_bound. intros Hirr Hc Hfuel Hvalues Hfuel' Hj.
  split.
  - destruct (push_run comparator fuel value c Hirr) as (c' & -> & Hperm);
      [unfold size; lia|done|].
    exists c'. split; [done|]. rewrite Hperm. cbn [length]. lia.
  - destruct (push_all_run comparator fuel values [] Hirr)
      as (c1 & -> & Hperm1); [unfold size; cbn [length]; lia|done|].
    run_step. rewrite app_nil_r in Hperm1.
    destruct (pop_times_run comparator fuel j c1) as (c' & -> & Hlen).
    + unfold fits, size, index_bound. by rewrite Hperm1.
    + by rewrite Hperm1.
    + exists c'. split; [done|]. rewrite Hlen, Hperm1. lia.
Qed.

Lemma size_accounting_witness :
  (∃ c', push less 7 4 [9; 5; 8] = Done c' ∧ size c' = size [9; 5; 8] + 1) ∧
  (∃ c', (c ← push_all less 7 sample []; pop_times less 7 4 c) = Done c' ∧
         size c' = Z.of_nat (length sample) - Z.of_nat 4).
Proof.
  apply (size_accounting less 7 4 [9; 5; 8] sample 4).
  - apply less_irreflexive.
  - vm_compute. reflexivity.
  - vm_compute. lia.
  - vm_compute. reflexivity.
  - vm_compute. lia.
  - vm_compute. lia.
Defined.

(** ** Reading the extreme element *)

(** C8, as the specification states it, fails: [top()] on an empty heap
    throws nothing; the source reads [front()] of an empty vector. *)
Lemma top_of_empty_does_not_fail :
  top ([] : list Z) = Undefined ∧ ¬ ∃ e, top ([] : list Z) = Throw e.
Proof. split; [done|]. by intros [e ?]. Qed.

(** C8, amended.  [top()] on a non-empty heap returns [elements[0]] and
    leaves the heap as it is; on an empty heap it checks nothing and
    reads the front of an empty vector, which is undefined behaviour:
    no failure is raised. *)
Theorem top_contract {T} (x : T) (c : list T) :
  top (x :: c) = Done x ∧
  at_ (x :: c) 0 = Done x ∧
  top ([] : list T) = Undefined.
Proof. done. Qed.

(** ** Termination of bubble-up *)

(** With a reflexive comparator the loop of [bubble_up] never leaves the
    root: no amount of fuel is enough. *)
Lemma bubble_up_reflexive_diverges fuel :
  bubble_up less_equal fuel [1] 0 = Timeout.
Proof. induction fuel as [|fuel IH]; [done|]. exact IH. Qed.

(** C9.  [bubble_up] returns from every valid start index when the
    comparator is irreflexive.  [has_parent] holds at the root of a
    non-empty heap and [get_parent_index 0] is 0, so the root is
    compared with itself; the comparison is false, the loop stops there
    and the container is left as it was: the root is never swapped with
    itself.  The heap has fewer than 2^30 elements. *)
Theorem bubble_up_terminates {T} (comparator : T → T → bool) fuel
    (c : list T) (i : nat) :
  irreflexive comparator →
  fits c → (i < length c)%nat → (i < fuel)%nat →
  (∃ c', bubble_up comparator fuel c (Z.of_nat i) = Done c' ∧ c' ≡ₚ c) ∧
  has_parent c 0 = true ∧
  get_parent_index 0 = 0 ∧
  parent c 0 = at_ c 0 ∧
  bubble_up comparator fuel c 0 = Done c.
Proof.
  intros Hirr Hc Hi Hfuel.
  assert (size c < 2 ^ 31) as Hc'
    by (unfold fits, index_bound in Hc; lia).
  assert (has_parent c 0 = true) as Hp.
  { change 0 with (Z.of_nat 0). rewrite has_parent_nat by done.
    apply bool_decide_eq_true_2. lia. }
  split_and!.
  - by apply bubble_up_run.
  - done.
  - done.
  - unfold parent. by rewrite Hp.
  - destruct fuel as [|fuel]; [lia|].
    apply bubble_up_root; [done..|]. intros ->. cbn in Hi. lia.
Qed.

Lemma bubble_up_terminates_witness :
  (∃ c', bubble_up less 4 [9; 5; 8; 10] (Z.of_nat 3) = Done c' ∧
         c' ≡ₚ [9; 5; 8; 10]) ∧
  has_parent [9; 5; 8; 10] 0 = true ∧
  get_parent_index 0 = 0 ∧
  parent [9; 5; 8; 10] 0 = at_ [9; 5; 8; 10] 0 ∧
  bubble_up less 4 [9; 5; 8; 10] 0 = Done [9; 5; 8; 10].
Proof.
  apply (bubble_up_terminates less 4 [9; 5; 8; 10] 3).
  - apply less_irreflexive.
  - vm_compute. reflexivity.
  - vm_compute. lia.
  - lia.
Defined.

(** ** Bulk load of nothing *)

(** C10.  [heapify] of an empty collection leaves the heap empty,
    whatever it held.  [size() - 1] wraps to 2^64 - 1 and narrows to
    -1, so the loop runs zero times: the call returns even without fuel
    for a single [bubble_down], and [is_heap()] is true afterwards. *)
Theorem heapify_empty {T} (comparator : T → T → bool) fuel (c : list T) :
  to_size_t (size (@nil T) - 1) = 2 ^ 64 - 1 ∧
  heapify_start (@nil T) = -1 ∧
  heapify comparator 0 [] c = Done [] ∧
  heapify comparator fuel [] c = Done [] ∧
  is_heap comparator [] = Done true.
Proof. done. Qed.

(** * Further properties of the code *)

(** ** The loops are logarithmic, and leave a heap alone *)

Section Effort.

Context {T : Type}.
Variable comparator : T → T → bool.

Implicit Types (c : list T) (fuel : nat) (i j k : nat).

(** Each iteration of [bubble_up] halves [index + 1]. *)
Lemma bubble_up_log fuel :
  irreflexive comparator → ∀ c j,
  size c < 2 ^ 31 → (j < length c)%nat → (j + 1 < 2 ^ fuel)%nat →
  ∃ c', bubble_up comparator fuel c (Z.of_nat j) = Done c' ∧ c' ≡ₚ c.
Proof.
  intros Hirr.
  induction fuel as [|fuel IH]; intros c j Hc Hj Hfuel; [cbn in Hfuel; lia|].
  rewrite Nat.pow_succ_r' in Hfuel.
  destruct (lookup_lt_is_Some_2 c j) as [x Hx]; [lia|].
  destruct (lookup_lt_is_Some_2 c ((j - 1) / 2)) as [p Hp]; [lia|].
  rewrite (bubble_up_unfold comparator fuel c j x p) by done.
  destruct (comparator p x) eqn:Hpx; [|by exists c].
  assert (0 < j)%nat as Hpos.
  { destruct j; [|lia]. change ((0 - 1) / 2)%nat with 0%nat in Hp.
    rewrite Hx in Hp. injection Hp as ->. rewrite Hirr in Hpx. done. }
  destruct (IH (exchange c j ((j - 1) / 2)) ((j - 1) / 2)%nat)
    as (c' & Hrun & Hperm).
  - unfold size in *. by rewrite length_exchange.
  - rewrite length_exchange. lia.
  - remember (2 ^ fuel)%nat as bound. lia.
  - exists c'. split; [done|]. by rewrite Hperm, exchange_perm.
Qed.

(** Each iteration of [bubble_down] doubles [index + 1]. *)
Lemma bubble_down_log fuel : ∀ c j,
  fits c → Z.of_nat j < index_bound →
  (0 < fuel)%nat → (length c < (j + 1) * 2 ^ fuel)%nat →
  ∃ c', bubble_down comparator fuel c (Z.of_nat j) = Done c' ∧ c' ≡ₚ c.
Proof.
  induction fuel as [|fuel IH]; intros c j Hc Hj Hpos Hfuel; [lia|].
  rewrite Nat.pow_succ_r' in Hfuel.
  destruct (decide (2 * j + 1 < length c)%nat) as [Hl|Hl].
  - pose proof (best_child_cases comparator c j Hl) as Hs.
    destruct (lookup_lt_is_Some_2 c j) as [x Hx]; [lia|].
    destruct (lookup_lt_is_Some_2 c (best_child comparator c j))
      as [y Hy]; [lia|].
    rewrite (bubble_down_unfold comparator fuel c j x y) by done.
    destruct (comparator x y); [|by exists c].
    destruct (IH (exchange c j (best_child comparator c j))
                (best_child comparator c j)) as (c' & Hrun & Hperm).
    + unfold fits, size in *. by rewrite length_exchange.
    + unfold fits, size, index_bound in *. lia.
    + destruct fuel; [cbn in Hfuel; lia|lia].
    + rewrite length_exchange. remember (2 ^ fuel)%nat as bound.
      assert (2 * (j + 1) ≤ best_child comparator c j + 1)%nat by lia.
      nia.
    + exists c'. split; [done|]. by rewrite Hperm, exchange_perm.
  - rewrite bubble_down_leaf by (done || lia). by exists c.
Qed.

(** In a heap no node is worse than the child [bubble_down] picks, so
    the loop stops at once. *)
Lemma bubble_down_fixed fuel c j :
  fits c → Z.of_nat j < index_bound → heap_order comparator c →
  bubble_down comparator (S fuel) c (Z.of_nat j) = Done c.
Proof.
  intros Hc Hj Hheap.
  destruct (decide (2 * j + 1 < length c)%nat) as [Hl|Hl].
  - pose proof (best_child_cases comparator c j Hl) as Hs.
    destruct (lookup_lt_is_Some_2 c j) as [x Hx]; [lia|].
    destruct (lookup_lt_is_Some_2 c (best_child comparator c j))
      as [y Hy]; [lia|].
    rewrite (bubble_down_unfold comparator fuel c j x y) by done.
    rewrite (Hheap j x y Hx); [done|].
    destruct Hs as [Hs|[Hs _]]; rewrite Hs in Hy; auto.
  - by rewrite bubble_down_leaf by (done || lia).
Qed.

Lemma heapify_loop_fixed fuel n c :
  fits c → (n ≤ length c)%nat → heap_order comparator c →
  heapify_loop comparator (S fuel) n c = Done c.
Proof.
  intros Hc Hn Hheap. induction n as [|n IH]; [done|].
  cbn [heapify_loop].
  rewrite bubble_down_fixed by (done || unfold fits, size in Hc; lia).
  run_step. apply IH. lia.
Qed.

(** A comparator that holds of the root and itself keeps [bubble_up] at
    the root for ever. *)
Lemma bubble_up_root_diverges fuel x c :
  comparator x x = true → size (x :: c) < 2 ^ 31 →
  bubble_up comparator fuel (x :: c) 0 = Timeout.
Proof.
  intros Hxx Hc. induction fuel as [|fuel IH]; [done|].
  change 0 with (Z.of_nat 0).
  rewrite (bubble_up_unfold comparator fuel (x :: c) 0 x x) by done.
  rewrite Hxx. change ((0 - 1) / 2)%nat with 0%nat.
  unfold exchange. cbn [lookup list_lookup insert list_insert]. exact IH.
Qed.

(** [bubble_up] from [j] reads and writes only [j] and its ancestors. *)
Lemma bubble_up_above fuel : ∀ c j c',
  size c < 2 ^ 31 → (j < length c)%nat →
  bubble_up comparator fuel c (Z.of_nat j) = Done c' →
  ∀ k, (j < k)%nat → c' !! k = c !! k.
Proof.
  induction fuel as [|fuel IH]; intros c j c' Hc Hj Hrun k Hk; [done|].
  destruct (lookup_lt_is_Some_2 c j) as [x Hx]; [lia|].
  destruct (lookup_lt_is_Some_2 c ((j - 1) / 2)) as [p Hp]; [lia|].
  rewrite (bubble_up_unfold comparator fuel c j x p) in Hrun by done.
  destruct (comparator p x); [|by simplify_eq].
  rewrite (IH (exchange c j ((j - 1) / 2)) ((j - 1) / 2)%nat c').
  - rewrite lookup_exchange by lia. by rewrite !decide_False by lia.
  - unfold size in *. by rewrite length_exchange.
  - rewrite length_exchange. lia.
  - done.
  - lia.
Qed.

(** [bubble_down] from [j] reads and writes only [j] and its descendants. *)
Lemma bubble_down_below fuel : ∀ c j c',
  fits c → Z.of_nat j < index_bound →
  bubble_down comparator fuel c (Z.of_nat j) = Done c' →
  ∀ k, (k < j)%nat → c' !! k = c !! k.
Proof.
  induction fuel as [|fuel IH]; intros c j c' Hc Hj Hrun k Hk; [done|].
  destruct (decide (2 * j + 1 < length c)%nat) as [Hl|Hl].
  - pose proof (best_child_cases comparator c j Hl) as Hs.
    destruct (lookup_lt_is_Some_2 c j) as [x Hx]; [lia|].
    destruct (lookup_lt_is_Some_2 c (best_child comparator c j))
      as [y Hy]; [lia|].
    rewrite (bubble_down_unfold comparator fuel c j x y) in Hrun by done.
    destruct (comparator x y); [|by simplify_eq].
    rewrite (IH (exchange c j (best_child comparator c j))
               (best_child comparator c j) c').
    + rewrite lookup_exchange by lia. by rewrite !decide_False by lia.
    + unfold fits, size in *. by rewrite length_exchange.
    + unfold fits, size, index_bound in *. lia.
    + done.
    + lia.
  - rewrite bubble_down_leaf in Hrun by (done || lia). by simplify_eq.
Qed.

End Effort.

(** ** What a client sees through [top()] *)

Section Extreme.

Context {T : Type}.
Variable comparator : T → T → bool.
Hypothesis Hswo : strict_weak_order comparator.

Implicit Types (c : list T) (fuel : nat).

Lemma top_best c r :
  heap_order comparator c → top c = Done r →
  ∀ y, y ∈ c → comparator r y = false.
Proof.
  intros Hheap Htop y [k Hk]%list_elem_of_lookup.
  destruct c as [|r' c]; [done|]. injection Htop as ->.
  by apply (root_best comparator Hswo (r :: c) r Hheap eq_refl k).
Qed.

Lemma drain_ok fuel rounds : ∀ c,
  fits c → (length c ≤ fuel)%nat → (length c ≤ rounds)%nat →
  heap_order comparator c →
  ∃ l, drain comparator fuel rounds c = Done l ∧ l ≡ₚ c ∧
       extraction_order comparator l.
Proof.
  induction rounds as [|rounds IH]; intros c Hc Hfuel Hrounds Hheap.
  { destruct c; [|cbn in Hrounds; lia]. exists []. split_and!; [done..|].
    by intros ?????. }
  destruct c as [|x c].
  { exists []. split_and!; [done..|]. by intros ?????. }
  destruct (pop_ok comparator Hswo fuel (x :: c))
    as (c' & Hpop & Hlen & Hperm & Hheap'); [done..|].
  specialize (Hperm x eq_refl).
  destruct (IH c') as (rest & Hrest & Hperm' & Hsorted).
  { unfold fits, size in *. cbn [length] in *. lia. }
  { cbn [length] in *. lia. }
  { cbn [length] in *. lia. }
  { done. }
  exists (x :: rest). split_and!.
  - cbn [drain]. unfold empty, size. cbn [length].
    replace (Z.of_nat (S (length c)) =? 0) with false by lia.
    cbn [top front]. run_step. rewrite Hpop. run_step.
    rewrite Hrest. by run_step.
  - by rewrite Hperm'.
  - intros [|i] [|j] a b Hij Ha Hb; try lia.
    + injection Ha as <-.
      apply (top_best (x :: c) x Hheap eq_refl).
      rewrite <-Hperm, <-Hperm'. right.
      apply list_elem_of_lookup. by exists j.
    + apply (Hsorted i j); [lia|done..].
Qed.

End Extreme.

Section Total.

Context {T : Type}.
Variable comparator : T → T → bool.
Hypothesis Hsto : strict_total_order comparator.

Implicit Types (c : list T) (fuel : nat).

(** After a push the root is the better of the old root and the new
    value. *)
Lemma push_top fuel v c r :
  size c + 1 < index_bound → (length c < fuel)%nat →
  heap_order comparator c → top c = Done r →
  ∃ c', push comparator fuel v c = Done c' ∧
        top c' = Done (if comparator r v then v else r).
Proof.
  destruct Hsto as [Hswo Hconn]. intros Hc Hfuel Hheap Htop.
  unfold index_bound in Hc.
  destruct (push_ok comparator Hswo fuel v c)
    as (c' & Hrun & Hperm & Hheap'); [lia|done..|].
  exists c'. split; [done|].
  destruct c' as [|r' c'].
  { by apply Permutation_nil_cons in Hperm. }
  cbn [top front]. f_equal.
  assert (r' ∈ v :: c) as Hr' by (rewrite <-Hperm; left).
  assert (r ∈ c) as Hr by (destruct c; [done|]; injection Htop as ->; left).
  pose proof (top_best comparator Hswo c r Hheap Htop) as Hbest.
  pose proof (top_best comparator Hswo (r' :: c') r' Hheap' eq_refl) as Hbest'.
  destruct (comparator r v) eqn:Hrv.
  - apply Hconn.
    + apply Hbest'. rewrite Hperm. left.
    + apply elem_of_cons in Hr' as [->|Hr']; [apply Hswo|].
      destruct (comparator v r') eqn:Hvr; [|done].
      pose proof (swo_transitive _ Hswo _ _ _ Hrv Hvr) as Hrr.
      by rewrite (Hbest r' Hr') in Hrr.
  - apply Hconn.
    + apply Hbest'. rewrite Hperm. by right.
    + apply elem_of_cons in Hr' as [->|Hr']; [done|]. by apply Hbest.
Qed.

End Total.

(** ** The validity check *)

Section Check.

Context {T : Type}.
Variable comparator : T → T → bool.

Implicit Types (c : list T) (i n : nat).

(** One iteration of the loop of [is_heap]. *)
Lemma is_heap_loop_unfold n c i x :
  fits c → c !! i = Some x →
  is_heap_loop comparator (S n) c (Z.of_nat i) =
  if match c !! (2 * i + 1)%nat with
     | Some l => comparator x l | None => false end
  then Done false
  else if match c !! (2 * i + 2)%nat with
          | Some r => comparator x r | None => false end
  then Done false
  else is_heap_loop comparator n c (Z.of_nat (S i)).
Proof.
  intros Hc Hx. pose proof (lookup_lt_Some _ _ _ Hx) as Hi.
  pose proof Hc as Hc'. unfold fits, size, index_bound in Hc'.
  assert (Z.of_nat i < index_bound - 1) as Hi1 by (unfold index_bound; lia).
  assert (Z.of_nat i < index_bound) as Hi2 by lia.
  cbn [is_heap_loop]. unfold left_child, right_child.
  rewrite (to_int32_small (Z.of_nat i)) by lia.
  rewrite has_left_child_nat, has_right_child_nat by done.
  rewrite get_left_child_index_nat, get_right_child_index_nat by done.
  rewrite !at_nat by lia. rewrite Hx.
  replace (to_size_t (Z.of_nat i + 1)) with (Z.of_nat (S i))
    by (rewrite to_size_t_small; lia).
  assert (2 * i + 1 < length c ∨ length c ≤ 2 * i + 1)%nat as [Hl|Hl] by lia.
  - rewrite (bool_decide_eq_true_2 (2 * i + 1 < length c)%nat) by done.
    destruct (lookup_lt_is_Some_2 c _ Hl) as [l ->]. run_step.
    destruct (comparator x l); [done|].
    assert (2 * i + 2 < length c ∨ length c ≤ 2 * i + 2)%nat as [Hr|Hr] by lia.
    + rewrite (bool_decide_eq_true_2 (2 * i + 2 < length c)%nat) by done.
      destruct (lookup_lt_is_Some_2 c _ Hr) as [r ->]. run_step.
      by destruct (comparator x r).
    + rewrite (bool_decide_eq_false_2 (2 * i + 2 < length c)%nat) by lia.
      by rewrite (lookup_ge_None_2 c (2 * i + 2)) by lia.
  - rewrite (bool_decide_eq_false_2 (2 * i + 1 < length c)%nat) by lia.
    rewrite (bool_decide_eq_false_2 (2 * i + 2 < length c)%nat) by lia.
    rewrite (lookup_ge_None_2 c (2 * i + 1)) by lia.
    by rewrite (lookup_ge_None_2 c (2 * i + 2)) by lia.
Qed.

(** When the loop answers false it has found a pair out of order. *)
Lemma is_heap_loop_false c n : ∀ i,
  fits c → (i + n = length c)%nat →
  is_heap_loop comparator n c (Z.of_nat i) = Done false →
  ∃ (k : nat) x y, c !! k = Some x ∧
    (c !! (2 * k + 1)%nat = Some y ∨ c !! (2 * k + 2)%nat = Some y) ∧
    comparator x y = true.
Proof.
  induction n as [|n IH]; intros i Hc Hi Hrun; [done|].
  destruct (lookup_lt_is_Some_2 c i) as [x Hx]; [lia|].
  rewrite (is_heap_loop_unfold n c i x) in Hrun by done.
  destruct (c !! (2 * i + 1)%nat) as [l|] eqn:Hl.
  - destruct (comparator x l) eqn:Hxl; [by exists i, x, l; auto|].
    destruct (c !! (2 * i + 2)%nat) as [r|] eqn:Hr.
    + destruct (comparator x r) eqn:Hxr; [by exists i, x, r; auto|].
      apply (IH (S i)); [done|lia|done].
    + apply (IH (S i)); [done|lia|done].
  - destruct (c !! (2 * i + 2)%nat) as [r|] eqn:Hr.
    + destruct (comparator x r) eqn:Hxr; [by exists i, x, r; auto|].
      apply (IH (S i)); [done|lia|done].
    + apply (IH (S i)); [done|lia|done].
Qed.

End Check.

(** X1.  [is_heap()] always returns, and returns true exactly when no
    element is worse than one of its two children; when it returns
    false there is a parent that is worse than one of its children. *)
Theorem is_heap_decides_heap_order {T} (comparator : T → T → bool)
    (c : list T) :
  fits c →
  ∃ b, is_heap comparator c = Done b ∧
       (b = true ↔ heap_order comparator c) ∧
       (b = false ↔
        ∃ (i : nat) x y, c !! i = Some x ∧
          (c !! (2 * i + 1)%nat = Some y ∨ c !! (2 * i + 2)%nat = Some y) ∧
          comparator x y = true).
Proof.
  intros Hc. destruct (is_heap_spec comparator c Hc) as (b & Hrun & Hb).
  exists b. split_and!; [done..|]. split.
  - intros ->. by apply (is_heap_loop_false comparator c (length c) 0).
  - intros (i & x & y & Hx & Hy & Hxy). destruct b; [|done].
    rewrite (proj1 Hb eq_refl i x y Hx Hy) in Hxy. done.
Qed.

Lemma is_heap_decides_heap_order_witness :
  ∃ b, is_heap less [9; 5; 8; 1; 7; 2] = Done b ∧
       (b = true ↔ heap_order less [9; 5; 8; 1; 7; 2]) ∧
       (b = false ↔
        ∃ (i : nat) x y, [9; 5; 8; 1; 7; 2] !! i = Some x ∧
          ([9; 5; 8; 1; 7; 2] !! (2 * i + 1)%nat = Some y ∨
           [9; 5; 8; 1; 7; 2] !! (2 * i + 2)%nat = Some y) ∧
          less x y = true).
Proof.
  apply (is_heap_decides_heap_order less [9; 5; 8; 1; 7; 2]).
  vm_compute. reflexivity.
Defined.

(** ** The element accessors *)

(** X2.  For an index in range, [left_child] and [right_child] return
    the elements at [2 * index + 1] and [2 * index + 2], and throw their
    own [out_of_range] when the container ends before that position;
    [parent] returns the element at [(index - 1) / 2] for every index
    below the size, the root included, and throws otherwise. *)
Theorem accessors_read_relatives {T} (c : list T) (i : nat) :
  fits c → Z.of_nat i < index_bound - 1 →
  left_child c (Z.of_nat i) =
    match c !! (2 * i + 1)%nat with
    | Some x => Done x
    | None => Throw (IndexUnavailable LeftChild)
    end ∧
  right_child c (Z.of_nat i) =
    match c !! (2 * i + 2)%nat with
    | Some x => Done x
    | None => Throw (IndexUnavailable RightChild)
    end ∧
  parent c (Z.of_nat i) =
    match c !! i, c !! ((i - 1) / 2)%nat with
    | Some _, Some x => Done x
    | _, _ => Throw (IndexUnavailable Parent)
    end.
Proof.
  intros Hc Hi. pose proof Hc as Hc'. unfold fits, size, index_bound in Hc'.
  assert (Z.of_nat i < index_bound) as Hi' by lia.
  unfold index_bound in Hi. unfold left_child, right_child, parent.
  rewrite has_left_child_nat, has_right_child_nat by done.
  rewrite has_parent_nat by (unfold size; lia).
  rewrite get_left_child_index_nat, get_right_child_index_nat by done.
  rewrite get_parent_index_nat by lia. rewrite !at_nat by lia.
  split_and!.
  - case_bool_decide as Hl; cbn [negb].
    + by destruct (lookup_lt_is_Some_2 c _ Hl) as [x ->].
    + by rewrite lookup_ge_None_2 by lia.
  - case_bool_decide as Hr; cbn [negb].
    + by destruct (lookup_lt_is_Some_2 c _ Hr) as [x ->].
    + by rewrite lookup_ge_None_2 by lia.
  - case_bool_decide as Hp; cbn [negb].
    + destruct (lookup_lt_is_Some_2 c i Hp) as [x ->].
      by destruct (lookup_lt_is_Some_2 c ((i - 1) / 2)) as [p ->]; [lia|].
    + by rewrite (lookup_ge_None_2 c i) by lia.
Qed.

Lemma accessors_read_relatives_witness :
  left_child [9; 5; 8; 1] (Z.of_nat 1) =
    match [9; 5; 8; 1] !! (2 * 1 + 1)%nat with
    | Some x => Done x
    | None => Throw (IndexUnavailable LeftChild)
    end ∧
  right_child [9; 5; 8; 1] (Z.of_nat 1) =
    match [9; 5; 8; 1] !! (2 * 1 + 2)%nat with
    | Some x => Done x
    | None => Throw (IndexUnavailable RightChild)
    end ∧
  parent [9; 5; 8; 1] (Z.of_nat 1) =
    match [9; 5; 8; 1] !! 1%nat, [9; 5; 8; 1] !! ((1 - 1) / 2)%nat with
    | Some _, Some x => Done x
    | _, _ => Throw (IndexUnavailable Parent)
    end.
Proof.
  apply (accessors_read_relatives [9; 5; 8; 1] 1).
  - vm_compute. reflexivity.
  - vm_compute. reflexivity.
Defined.

(** X15.  A negative index never reads an element through [left_child]
    or [parent]: [left_child] throws its own [out_of_range]; [parent]
    passes its guard, which only compares with the size, and the
    exception comes from [std::vector::at]. *)
Theorem negative_index_reads_nothing {T} (c : list T) (index : Z) :
  - 2 ^ 30 ≤ index < 0 → 0 < size c < 2 ^ 31 →
  left_child c index = Throw (IndexUnavailable LeftChild) ∧
  has_parent c index = true ∧
  parent c index = Throw VectorRange.
Proof.
  intros Hi Hc. unfold left_child, parent, has_left_child, has_parent.
  unfold get_left_child_index, get_parent_index.
  rewrite (to_int32_small (2 * index + 1)) by lia.
  rewrite (to_int32_small (size c)) by lia.
  rewrite (to_int32_small (index - 1)) by lia.
  rewrite (to_int32_small ((index - 1) ÷ 2)) by lia.
  replace (to_size_t (2 * index + 1) <? size c) with false
    by (unfold to_size_t; lia).
  replace (index <? size c) with true by lia.
  split_and!; [done..|]. cbn [negb]. unfold at_.
  rewrite lookup_ge_None_2; [done|].
  unfold size, to_size_t in *. lia.
Qed.

Lemma negative_index_reads_nothing_witness :
  left_child [9; 5; 8] (-1) = Throw (IndexUnavailable LeftChild) ∧
  has_parent [9; 5; 8] (-1) = true ∧
  parent [9; 5; 8] (-1) = Throw VectorRange.
Proof.
  apply (negative_index_reads_nothing [9; 5; 8] (-1)).
  - lia.
  - vm_compute. split; reflexivity.
Defined.

(** ** What is in the heap *)

(** X3.  [push] adds the value and nothing else: the container it
    leaves holds the elements it held, and the new value once more.
    The comparator is irreflexive; the heap stays below 2^30
    elements. *)
Theorem push_adds_the_value {T} (comparator : T → T → bool) fuel
    (value : T) (c : list T) :
  irreflexive comparator →
  size c + 1 < index_bound → (length c < fuel)%nat →
  ∃ c', push comparator fuel value c = Done c' ∧ c' ≡ₚ value :: c.
Proof.
  unfold index_bound. intros Hirr Hc Hfuel.
  apply push_run; [done|lia|done].
Qed.

Lemma push_adds_the_value_witness :
  ∃ c', push less 4 7 [9; 5; 8] = Done c' ∧ c' ≡ₚ 7 :: [9; 5; 8].
Proof.
  apply (push_adds_the_value less 4 7 [9; 5; 8]).
  - apply less_irreflexive.
  - vm_compute. reflexivity.
  - vm_compute. lia.
Defined.

(** X4.  [pop] removes the element [top()] returns, once, and nothing
    else, whatever the comparator.  The heap has fewer than 2^30
    elements. *)
Theorem pop_removes_the_top {T} (comparator : T → T → bool) fuel
    (c : list T) (x : T) :
  fits c → (length c ≤ fuel)%nat → top c = Done x →
  ∃ c', pop comparator fuel c = Done c' ∧ x :: c' ≡ₚ c.
Proof.
  intros Hc Hfuel Htop.
  destruct (pop_run comparator fuel c) as (c' & Hrun & _ & Hperm); [done..|].
  exists c'. split; [done|]. apply Hperm.
  destruct c; [done|]. by injection Htop as ->.
Qed.

Lemma pop_removes_the_top_witness :
  ∃ c', pop less 6 [9; 5; 8; 1; 3; 2] = Done c' ∧
        9 :: c' ≡ₚ [9; 5; 8; 1; 3; 2].
Proof.
  apply (pop_removes_the_top less 6 [9; 5; 8; 1; 3; 2] 9).
  - vm_compute. reflexivity.
  - vm_compute. lia.
  - reflexivity.
Defined.

(** X5.  When [is_heap()] returns true, [top()] is an element of the
    heap that is not worse than any element.  The comparator is a
    strict weak ordering. *)
Theorem top_is_extreme {T} (comparator : T → T → bool) (c : list T) (r : T) :
  strict_weak_order comparator → fits c →
  is_heap comparator c = Done true → top c = Done r →
  r ∈ c ∧ ∀ y, y ∈ c → comparator r y = false.
Proof.
  intros Hswo Hc Hcheck Htop.
  destruct (is_heap_spec comparator c Hc) as (b & Hrun & Hb).
  rewrite Hcheck in Hrun. injection Hrun as <-.
  split.
  - destruct c; [done|]. injection Htop as ->. left.
  - apply (top_best comparator Hswo c r); [by apply Hb|done].
Qed.

Lemma top_is_extreme_witness :
  9 ∈ [9; 5; 8; 1; 3; 2] ∧ ∀ y, y ∈ [9; 5; 8; 1; 3; 2] → less 9 y = false.
Proof.
  apply (top_is_extreme less [9; 5; 8; 1; 3; 2] 9).
  - apply less_strict_weak_order.
  - vm_compute. reflexivity.
  - vm_compute. reflexivity.
  - reflexivity.
Defined.

(** X6.  Polarity: after any sequence of [push], [heapify] and [pop]
    calls on an empty heap, [top()] is the largest element under
    [std::less] and the smallest under [std::greater].  The heap stays
    below 2^30 elements. *)
Theorem top_is_maximum_or_minimum fuel (ops : list (@operation Z)) :
  Z.of_nat (peak_size ops 0) < index_bound →
  (peak_size ops 0 < fuel)%nat →
  (∃ c, run less fuel ops [] = Done c ∧
        ∀ r y, top c = Done r → y ∈ c → y ≤ r) ∧
  (∃ c, run greater fuel ops [] = Done c ∧
        ∀ r y, top c = Done r → y ∈ c → r ≤ y).
Proof.
  intros Hpeak Hfuel. split.
  - destruct (run_ok less less_strict_weak_order fuel ops [])
      as (c & Hrun & Hc & Hheap); [done..|by intros [|i] ???|].
    exists c. split; [done|]. intros r y Htop Hy.
    pose proof (top_best less less_strict_weak_order c r Hheap Htop y Hy).
    unfold less in *. lia.
  - pose proof (sto_weak _ greater_strict_total_order) as Hswo.
    destruct (run_ok greater Hswo fuel ops [])
      as (c & Hrun & Hc & Hheap); [done..|by intros [|i] ???|].
    exists c. split; [done|]. intros r y Htop Hy.
    pose proof (top_best greater Hswo c r Hheap Htop y Hy).
    unfold greater in *. lia.
Qed.

Lemma top_is_maximum_or_minimum_witness :
  (∃ c, run less 8 sample_operations [] = Done c ∧
        ∀ r y, top c = Done r → y ∈ c → y ≤ r) ∧
  (∃ c, run greater 8 sample_operations [] = Done c ∧
        ∀ r y, top c = Done r → y ∈ c → r ≤ y).
Proof.
  apply (top_is_maximum_or_minimum 8 sample_operations).
  - vm_compute. reflexivity.
  - vm_compute. lia.
Defined.

(** ** Reading the heap off in order *)

(** X7.  Heap sort: [heapify] a collection, then read [top()] and call
    [pop()] until [empty()]; the elements read are the collection,
    rearranged so that none is worse than one read after it.  The
    comparator is a strict weak ordering; the collection has fewer than
    2^30 elements. *)
Theorem heapify_then_drain_sorts {T} (comparator : T → T → bool) fuel
    (elements c0 : list T) :
  strict_weak_order comparator →
  fits elements → (length elements < fuel)%nat →
  ∃ l, (c ← heapify comparator fuel elements c0;
        drain comparator fuel (length elements) c) = Done l ∧
       l ≡ₚ elements ∧ extraction_order comparator l.
Proof.
  intros Hswo Hc Hfuel.
  destruct (heapify_ok comparator Hswo fuel elements c0)
    as (c & -> & Hperm & Hheap); [done..|].
  run_step.
  destruct (drain_ok comparator Hswo fuel (length elements) c)
    as (l & Hrun & Hperm' & Hsorted).
  - unfold fits, size in *. by rewrite Hperm.
  - rewrite Hperm. lia.
  - by rewrite Hperm.
  - done.
  - exists l. split_and!; [done| |done]. by rewrite Hperm'.
Qed.

Lemma heapify_then_drain_sorts_witness :
  ∃ l, (c ← heapify less 7 sample [10];
        drain less 7 (length sample) c) = Done l ∧
       l ≡ₚ sample ∧ extraction_order less l.
Proof.
  apply (heapify_then_drain_sorts less 7 sample [10]).
  - apply less_strict_weak_order.
  - vm_compute. reflexivity.
  - vm_compute. lia.
Defined.

(** ** Operations that change nothing *)

(** X8.  [heapify] of a collection that is a heap already, as
    [is_heap()] reports, stores it without a single exchange: the
    layout is the input's. *)
Theorem heapify_of_a_heap_is_identity {T} (comparator : T → T → bool) fuel
    (elements c0 : list T) :
  fits elements → is_heap comparator elements = Done true →
  heapify comparator (S fuel) elements c0 = Done elements.
Proof.
  intros Hc Hcheck.
  destruct (is_heap_spec comparator elements Hc) as (b & Hrun & Hb).
  rewrite Hcheck in Hrun. injection Hrun as <-.
  rewrite heapify_unfold by (unfold fits, index_bound in Hc; lia).
  apply heapify_loop_fixed; [done..|by apply Hb].
Qed.

Lemma heapify_of_a_heap_is_identity_witness :
  heapify less 1 [9; 5; 8; 1; 3; 2] [10] = Done [9; 5; 8; 1; 3; 2].
Proof.
  apply (heapify_of_a_heap_is_identity less 0 [9; 5; 8; 1; 3; 2] [10]).
  - vm_compute. reflexivity.
  - vm_compute. reflexivity.
Defined.

(** X9.  [push] of a value that the element at its parent position is
    not worse than stores the value last and moves nothing.  (On an
    empty heap the parent position holds the value itself.) *)
Theorem push_appends_when_in_order {T} (comparator : T → T → bool) fuel
    (value p : T) (c : list T) :
  size c + 1 < index_bound →
  (c ++ [value]) !! ((length c - 1) / 2)%nat = Some p →
  comparator p value = false →
  push comparator (S fuel) value c = Done (c ++ [value]).
Proof.
  unfold index_bound. intros Hc Hp Hpv.
  rewrite push_unfold by lia.
  rewrite (bubble_up_unfold comparator fuel (c ++ [value]) (length c) value p).
  - by rewrite Hpv.
  - unfold size in *. rewrite length_app. cbn [length]. lia.
  - by apply list_lookup_middle.
  - done.
Qed.

Lemma push_appends_when_in_order_witness :
  push less 1 4 [9; 5; 8] = Done ([9; 5; 8] ++ [4]).
Proof.
  apply (push_appends_when_in_order less 0 4 5 [9; 5; 8]).
  - vm_compute. reflexivity.
  - reflexivity.
  - reflexivity.
Defined.

(** X14.  The loops are local: [bubble_up] from an index leaves every
    element at a later position where it is, and [bubble_down] from an
    index leaves every element at an earlier position where it is. *)
Theorem sifting_is_local {T} (comparator : T → T → bool) fuel
    (c : list T) (j : nat) :
  fits c → (j < length c)%nat →
  (∀ c' k, bubble_up comparator fuel c (Z.of_nat j) = Done c' →
           (j < k)%nat → c' !! k = c !! k) ∧
  (∀ c' k, bubble_down comparator fuel c (Z.of_nat j) = Done c' →
           (k < j)%nat → c' !! k = c !! k).
Proof.
  intros Hc Hj.
  pose proof Hc as Hc'. unfold fits, size, index_bound in Hc'. split.
  - intros c' k Hrun.
    apply (bubble_up_above comparator fuel c j c'); [unfold size; lia|done..].
  - intros c' k Hrun.
    apply (bubble_down_below comparator fuel c j c');
      [done|unfold index_bound; lia|done].
Qed.

Lemma sifting_is_local_witness :
  (∀ c' k, bubble_up less 3 [5; 9; 8; 1; 7] (Z.of_nat 1) = Done c' →
           (1 < k)%nat → c' !! k = [5; 9; 8; 1; 7] !! k) ∧
  (∀ c' k, bubble_down less 3 [5; 9; 8; 1; 7] (Z.of_nat 1) = Done c' →
           (k < 1)%nat → c' !! k = [5; 9; 8; 1; 7] !! k).
Proof.
  apply (sifting_is_local less 3 [5; 9; 8; 1; 7] 1).
  - vm_compute. reflexivity.
  - vm_compute. lia.
Defined.

(** ** How long the loops run *)

(** X10.  [push] returns within a logarithmic number of iterations of
    the loop of [bubble_up]: [fuel] iterations are enough as soon as
    2^fuel exceeds the new size.  The comparator is irreflexive. *)
Theorem push_is_logarithmic {T} (comparator : T → T → bool) fuel
    (value : T) (c : list T) :
  irreflexive comparator →
  size c + 1 < index_bound → (length c + 1 < 2 ^ fuel)%nat →
  ∃ c', push comparator fuel value c = Done c' ∧ c' ≡ₚ value :: c.
Proof.
  unfold index_bound. intros Hirr Hc Hfuel.
  rewrite push_unfold by lia.
  destruct (bubble_up_log comparator fuel Hirr (c ++ [value]) (length c))
    as (c' & Hrun & Hperm).
  - unfold size in *. rewrite length_app. cbn [length]. lia.
  - rewrite length_app. cbn [length]. lia.
  - done.
  - exists c'. split; [done|]. rewrite Hperm. by rewrite Permutation_app_comm.
Qed.

Lemma push_is_logarithmic_witness :
  ∃ c', push less 4 10 [9; 5; 8; 1; 3; 2; 7; 0; 1; 2; 3; 1; 1; 4] = Done c' ∧
        c' ≡ₚ 10 :: [9; 5; 8; 1; 3; 2; 7; 0; 1; 2; 3; 1; 1; 4].
Proof.
  apply (push_is_logarithmic less 4 10
           [9; 5; 8; 1; 3; 2; 7; 0; 1; 2; 3; 1; 1; 4]).
  - apply less_irreflexive.
  - vm_compute. reflexivity.
  - vm_compute. lia.
Defined.

(** X11.  [pop] returns within a logarithmic number of iterations of
    the loop of [bubble_down]: [fuel] iterations are enough as soon as
    2^fuel exceeds the size, whatever the comparator. *)
Theorem pop_is_logarithmic {T} (comparator : T → T → bool) fuel
    (c : list T) :
  fits c → (length c < 2 ^ fuel)%nat →
  ∃ c', pop comparator fuel c = Done c' ∧
        length c' = Nat.pred (length c).
Proof.
  intros Hc Hfuel.
  destruct (list_ends c) as [->|[[x ->]|(x & m & y & ->)]].
  - by exists [].
  - exists []. destruct fuel; [cbn in Hfuel; lia|done].
  - rewrite pop_unfold.
    rewrite length_cons, length_app in Hfuel. cbn [length] in Hfuel.
    destruct (bubble_down_log comparator fuel (y :: m) 0)
      as (c' & Hrun & Hperm).
    + unfold fits, size in *. rewrite length_cons, length_app in Hc.
      cbn [length] in *. lia.
    + done.
    + destruct fuel; [cbn in Hfuel; lia|lia].
    + cbn [length]. lia.
    + exists c'. split; [done|]. rewrite Hperm.
      cbn [length]. rewrite length_app. cbn [length]. lia.
Qed.

Lemma pop_is_logarithmic_witness :
  ∃ c', pop less 4 [9; 5; 8; 1; 3; 2; 7; 0; 1; 2; 3; 1; 1; 4; 6] = Done c' ∧
        length c' =
        Nat.pred (length [9; 5; 8; 1; 3; 2; 7; 0; 1; 2; 3; 1; 1; 4; 6]).
Proof.
  apply (pop_is_logarithmic less 4
           [9; 5; 8; 1; 3; 2; 7; 0; 1; 2; 3; 1; 1; 4; 6]).
  - vm_compute. reflexivity.
  - vm_compute. lia.
Defined.

(** X13.  With a comparator that holds of a value and itself, such as
    [std::less_equal], [push] of that value on an empty heap never
    returns: the loop of [bubble_up] exchanges the root with itself for
    ever. *)
Theorem push_never_returns_when_reflexive {T} (comparator : T → T → bool)
    fuel (value : T) :
  comparator value value = true →
  push comparator fuel value [] = Timeout.
Proof.
  intros Hvv. rewrite push_unfold by (vm_compute; reflexivity).
  apply (bubble_up_root_diverges comparator fuel value [] Hvv).
  vm_compute. reflexivity.
Qed.

Lemma push_never_returns_when_reflexive_witness :
  push less_equal 100 1 [] = Timeout.
Proof.
  apply (push_never_returns_when_reflexive less_equal 100 1). reflexivity.
Defined.

(** ** The root after a push *)

(** X12.  After [push] on a non-empty heap, [top()] is the new value if
    the old [top()] was worse than it, and the old [top()] otherwise.
    The comparator is a strict total ordering. *)
Theorem push_updates_top {T} (comparator : T → T → bool) fuel
    (value r : T) (c : list T) :
  strict_total_order comparator →
  size c + 1 < index_bound → (length c < fuel)%nat →
  is_heap comparator c = Done true → top c = Done r →
  ∃ c', push comparator fuel value c = Done c' ∧
        top c' = Done (if comparator r value then value else r).
Proof.
  intros Hsto Hc Hfuel Hcheck Htop.
  assert (fits c) as Hfits by (unfold fits; lia).
  destruct (is_heap_spec comparator c Hfits) as (b & Hrun & Hb).
  rewrite Hcheck in Hrun. injection Hrun as <-.
  apply (push_top comparator Hsto); [done..|by apply Hb|done].
Qed.

Lemma push_updates_top_witness :
  ∃ c', push less 4 10 [9; 5; 8] = Done c' ∧
        top c' = Done (if less 9 10 then 10 else 9).
Proof.
  apply (push_updates_top less 4 10 9 [9; 5; 8]).
  - apply less_strict_total_order.
  - vm_compute. reflexivity.
  - vm_compute. lia.
  - vm_compute. reflexivity.
  - reflexivity.
Defined.

(** ** Beyond the range of the index type *)

(** X16.  The loop variable of [heapify] is an [int32_t]: for a
    collection of more than 2^31 and at most 2^32 elements it starts
    negative, the loop does not run, and the collection is stored as
    given, in heap order or not. *)
Theorem heapify_beyond_int32 {T} (comparator : T → T → bool) fuel
    (elements c0 : list T) :
  2 ^ 31 < size elements ≤ 2 ^ 32 →
  heapify_start elements < 0 ∧
  heapify comparator fuel elements c0 = Done elements.
Proof.
  intros Hc.
  assert (heapify_start elements = size elements - 1 - 2 ^ 32) as Hstart.
  { unfold heapify_start. rewrite to_size_t_small by lia.
    unfold to_int32. lia. }
  split; [lia|].
  unfold heapify, clear, assign. cbn zeta. rewrite Hstart.
  by replace (Z.to_nat (size elements - 1 - 2 ^ 32 + 1)) with 0%nat by lia.
Qed.

Lemma heapify_beyond_int32_witness :
  heapify_start (replicate (Z.to_nat (2 ^ 31 + 1)) 0) < 0 ∧
  heapify less 0 (replicate (Z.to_nat (2 ^ 31 + 1)) 0) [] =
  Done (replicate (Z.to_nat (2 ^ 31 + 1)) 0).
Proof.
  apply (heapify_beyond_int32 less 0 (replicate (Z.to_nat (2 ^ 31 + 1)) 0) []).
  unfold size. rewrite length_replicate. lia.
Defined.

(** ** Sequences of operations under any comparator *)

Section Safety.

Context {T : Type}.
Variable comparator : T → T → bool.

Implicit Types (c : list T) (fuel : nat) (j : nat).

Lemma bubble_up_safe fuel : ∀ c j,
  size c < 2 ^ 31 → (j < length c)%nat →
  returns_or_diverges (length c)
    (bubble_up comparator fuel c (Z.of_nat j)).
Proof.
  induction fuel as [|fuel IH]; intros c j Hc Hj; [by right|].
  destruct (lookup_lt_is_Some_2 c j) as [x Hx]; [lia|].
  destruct (lookup_lt_is_Some_2 c ((j - 1) / 2)) as [p Hp]; [lia|].
  rewrite (bubble_up_unfold comparator fuel c j x p) by done.
  destruct (comparator p x); [|left; by exists c].
  rewrite <-(length_exchange c j ((j - 1) / 2)). apply IH.
  - unfold size in *. by rewrite length_exchange.
  - rewrite length_exchange. lia.
Qed.

Lemma bubble_down_safe fuel : ∀ c j,
  fits c → Z.of_nat j < index_bound →
  returns_or_diverges (length c)
    (bubble_down comparator fuel c (Z.of_nat j)).
Proof.
  induction fuel as [|fuel IH]; intros c j Hc Hj; [by right|].
  destruct (decide (2 * j + 1 < length c)%nat) as [Hl|Hl].
  - pose proof (best_child_cases comparator c j Hl) as Hs.
    destruct (lookup_lt_is_Some_2 c j) as [x Hx]; [lia|].
    destruct (lookup_lt_is_Some_2 c (best_child comparator c j))
      as [y Hy]; [lia|].
    rewrite (bubble_down_unfold comparator fuel c j x y) by done.
    destruct (comparator x y); [|left; by exists c].
    rewrite <-(length_exchange c j (best_child comparator c j)). apply IH.
    + unfold fits, size in *. by rewrite length_exchange.
    + unfold fits, size, index_bound in *. lia.
  - rewrite bubble_down_leaf by (done || lia). left. by exists c.
Qed.

Lemma heapify_loop_safe fuel n : ∀ c,
  fits c → (n ≤ length c)%nat →
  returns_or_diverges (length c) (heapify_loop comparator fuel n c).
Proof.
  induction n as [|n IH]; intros c Hc Hn; [left; by exists c|].
  cbn [heapify_loop].
  destruct (bubble_down_safe fuel c n) as [(c1 & -> & Hlen)| ->];
    [done|unfold fits, size in Hc; lia| |by right].
  run_step. rewrite <-Hlen. apply IH.
  - unfold fits, size in *. by rewrite Hlen.
  - lia.
Qed.

Lemma apply_safe fuel (o : operation) c :
  fits c → Z.of_nat (size_after o (length c)) < index_bound →
  returns_or_diverges (size_after o (length c)) (apply comparator fuel o c).
Proof.
  unfold fits, size, index_bound. intros Hc Ho.
  destruct o as [v|elements|]; cbn [apply size_after] in *.
  - rewrite push_unfold by (unfold size; lia).
    replace (S (length c)) with (length (c ++ [v]))
      by (rewrite length_app; cbn [length]; lia).
    apply bubble_up_safe.
    + unfold size. rewrite length_app. cbn [length]. lia.
    + rewrite length_app. cbn [length]. lia.
  - rewrite heapify_unfold by (unfold size; lia).
    apply heapify_loop_safe; [unfold fits, size, index_bound; lia|done].
  - destruct (list_ends c) as [->|[[x ->]|(x & m & y & ->)]].
    + left. by exists [].
    + rewrite pop_single. change 0 with (Z.of_nat 0).
      apply (bubble_down_safe fuel [] 0); done.
    + rewrite pop_unfold. change 0 with (Z.of_nat 0).
      replace (Nat.pred (length (x :: m ++ [y]))) with (length (y :: m))
        by (cbn [length]; rewrite length_app; cbn [length]; lia).
      apply bubble_down_safe; [|done].
      rewrite length_cons, length_app in Hc. cbn [length] in Hc.
      unfold fits, size, index_bound. cbn [length]. lia.
Qed.

Lemma run_safe fuel ops : ∀ c,
  Z.of_nat (peak_size ops (length c)) < index_bound →
  returns_or_diverges (final_size ops (length c))
    (run comparator fuel ops c).
Proof.
  induction ops as [|o ops IH]; intros c Hpeak; [left; by exists c|].
  cbn [peak_size run final_size] in *.
  assert (size_after o (length c) ≤ peak_size ops (size_after o (length c)))
    %nat as Hle by (destruct ops; cbn [peak_size]; lia).
  destruct (apply_safe fuel o c) as [(c1 & -> & Hlen)| ->].
  - unfold fits, size. lia.
  - lia.
  - run_step. rewrite <-Hlen. apply IH. rewrite Hlen. lia.
  - by right.
Qed.

End Safety.

(** X18.  Within the capacity of the index type no sequence of public
    operations throws or has undefined behaviour, whatever the
    comparator and however long the loops are allowed to run: the
    sequence either returns, with the number of elements the operations
    account for, or is still inside a loop. *)
Theorem operations_never_throw {T} (comparator : T → T → bool) fuel
    (ops : list (@operation T)) (c : list T) :
  Z.of_nat (peak_size ops (length c)) < index_bound →
  (∃ c', run comparator fuel ops c = Done c' ∧
         length c' = final_size ops (length c)) ∨
  run comparator fuel ops c = Timeout.
Proof. apply run_safe. Qed.

Lemma operations_never_throw_witness :
  (∃ c', run less_equal 5 [Heapify sample; Pop; Push 4] [7] = Done c' ∧
         length c' = final_size [Heapify sample; Pop; Push 4] (length [7])) ∨
  run less_equal 5 [Heapify sample; Pop; Push 4] [7] = Timeout.
Proof.
  apply (operations_never_throw less_equal 5 [Heapify sample; Pop; Push 4] [7]).
  vm_compute. reflexivity.
Defined.

(** X17.  Size accounting over any sequence: [push] adds one element,
    [heapify] replaces the count by that of its argument, [pop] removes
    one unless the heap is empty; [empty()] and [size()] agree with the
    count.  The comparator is irreflexive; the heap stays below 2^30
    elements. *)
Theorem sizes_follow_the_operations {T} (comparator : T → T → bool) fuel
    (ops : list (@operation T)) (c : list T) :
  irreflexive comparator →
  Z.of_nat (peak_size ops (length c)) < index_bound →
  (peak_size ops (length c) < fuel)%nat →
  ∃ c', run comparator fuel ops c = Done c' ∧
        size c' = Z.of_nat (final_size ops (length c)) ∧
        empty c' = bool_decide (final_size ops (length c) = 0%nat).
Proof.
  intros Hirr. revert c.
  induction ops as [|o ops IH]; intros c Hpeak Hfuel.
  { exists c. split_and!; [done..|].
    unfold empty, size. cbn [final_size]. case_bool_decide; lia. }
  cbn [peak_size run final_size] in *.
  assert (size_after o (length c) ≤ peak_size ops (size_after o (length c)))
    %nat as Hle by (destruct ops; cbn [peak_size]; lia).
  unfold index_bound in Hpeak.
  assert (∃ c1, apply comparator fuel o c = Done c1 ∧
                length c1 = size_after o (length c)) as (c1 & -> & Hlen).
  { destruct o as [v|elements|]; cbn [apply size_after] in *.
    - destruct (push_run comparator fuel v c Hirr) as (c1 & Hrun & Hperm);
        [unfold size; lia|lia|].
      exists c1. split; [done|]. by rewrite Hperm.
    - destruct (heapify_run comparator fuel elements c)
        as (c1 & Hrun & Hperm); [unfold fits, size, index_bound; lia|lia|].
      exists c1. split; [done|]. by rewrite Hperm.
    - destruct (pop_run comparator fuel c) as (c1 & Hrun & Hlen & _);
        [unfold fits, size, index_bound; lia|lia|].
      by exists c1. }
  run_step. rewrite <-Hlen. apply IH; rewrite Hlen; unfold index_bound; lia.
Qed.

Lemma sizes_follow_the_operations_witness :
  ∃ c', run less 8 sample_operations [] = Done c' ∧
        size c' = Z.of_nat (final_size sample_operations (length (@nil Z))) ∧
        empty c' =
        bool_decide (final_size sample_operations (length (@nil Z)) = 0%nat).
Proof.
  apply (sizes_follow_the_operations less 8 sample_operations []).
  - apply less_irreflexive.
  - vm_compute. reflexivity.
  - vm_compute. lia.
Defined.
